(** * Contact tracing tracker: a shallow embedding of [contact_tracing.py]

    The development follows the [Tracker] class (position store, bounded
    per-agent contact history, contact scan, query responder) and the
    movement step of [PersonSimulator].  Python values are modelled as far
    as the tracker touches them:

    - a decoded JSON document is a [json] value; finite floats are carried
      by their exact rational value (the non-standard literals NaN and
      Infinity are not part of the payload type), a string is the
      sequence of its code points (those below 256), the entries of an
      object have distinct keys, in insertion order;
    - a dictionary key is the class of a hashable value under Python's
      [==] ([True], [1] and [1.0] are one key), see [pykey];
    - [self.positions] is an insertion-ordered dictionary, modelled by an
      association list, because [check_contacts] iterates over it;
    - [self.contact_history] is a [defaultdict(deque)] that is only ever
      indexed, modelled by a [gmap];
    - [time.time()] reads a clock: the world carries the sequence of
      readings and the number of readings made so far;
    - exceptions are values of [exn]; state changes made before a raise
      persist, as in Python. *)

From stdpp Require Import gmap strings list fin_maps.
From Stdlib Require Import ZArith QArith Qcanon Lia.

Local Open Scope Z_scope.

(** ** Python values *)

#[warnings="-register-all"]
Inductive json : Type :=
| JNull
| JBool (b : bool)
| JNum (n : Z)
| JFloat (q : Q)
| JStr (s : string)
| JArr (l : list json)
| JObj (m : list (string * json)).

Inductive exn : Type :=
| JSONDecodeError
| UnicodeDecodeError
| KeyError
| TypeError
| ValueError
| IndexError.

Inductive result (A : Type) : Type :=
| Ok (a : A)
| Raise (e : exn).
Arguments Ok {A} a.
Arguments Raise {A} e.

(** Numeric value of a member of Python's numeric tower. *)
Definition num_of (v : json) : option Q :=
  match v with
  | JBool b => Some (inject_Z (if b then 1 else 0))
  | JNum n => Some (inject_Z n)
  | JFloat q => Some q
  | _ => None
  end.

(** Lookup in the entries of a decoded JSON object. *)
Fixpoint obj_get (k : string) (m : list (string * json)) : option json :=
  match m with
  | [] => None
  | (k', v) :: m' => if String.eqb k k' then Some v else obj_get k m'
  end.

(** Python's [==] on decoded JSON values: numbers compare by value,
    lists element by element, dictionaries as unordered maps. *)
Fixpoint py_eqb (a b : json) {struct a} : bool :=
  match a, b with
  | JNull, JNull => true
  | JStr s, JStr t => String.eqb s t
  | JArr l, JArr l' =>
      (fix all2 (l l' : list json) {struct l} : bool :=
         match l, l' with
         | [], [] => true
         | u :: l, v :: l' => py_eqb u v && all2 l l'
         | _, _ => false
         end) l l'
  | JObj m, JObj m' =>
      Nat.eqb (length m) (length m') &&
      (fix all (m : list (string * json)) {struct m} : bool :=
         match m with
         | [] => true
         | (k, v) :: m =>
             match obj_get k m' with
             | Some v' => py_eqb v v'
             | None => false
             end && all m
         end) m
  | (JBool _ | JNum _ | JFloat _), (JBool _ | JNum _ | JFloat _) =>
      match num_of a, num_of b with
      | Some p, Some q => Qeq_bool p q
      | _, _ => false
      end
  | _, _ => false
  end.

(** Dictionary keys: hashable values up to [==]. *)
Inductive pykey : Type :=
| KNone
| KNum (q : Qc)
| KStr (s : string).

Global Instance pykey_eq_dec : EqDecision pykey.
Proof. solve_decision. Defined.

Definition pykey_enc (k : pykey) : unit + (Qc + string) :=
  match k with
  | KNone => inl ()
  | KNum q => inr (inl q)
  | KStr s => inr (inr s)
  end.

Definition pykey_dec (x : unit + (Qc + string)) : pykey :=
  match x with
  | inl _ => KNone
  | inr (inl q) => KNum q
  | inr (inr s) => KStr s
  end.

Global Instance pykey_countable : Countable pykey.
Proof.
  apply (inj_countable' pykey_enc pykey_dec).
  intros []; reflexivity.
Defined.

(** Using a value as a dictionary key hashes it: lists and dictionaries
    raise [TypeError: unhashable type]. *)
Definition py_hash (v : json) : result pykey :=
  match v with
  | JNull => Ok KNone
  | JStr s => Ok (KStr s)
  | JArr _ | JObj _ => Raise TypeError
  | JBool _ | JNum _ | JFloat _ =>
      match num_of v with
      | Some q => Ok (KNum (Q2Qc q))
      | None => Raise TypeError
      end
  end.

(** [data[key]] for a string [key]. *)
Definition getitem (data : json) (key : string) : result json :=
  match data with
  | JObj m =>
      match obj_get key m with
      | Some v => Ok v
      | None => Raise KeyError
      end
  | _ => Raise TypeError
  end.

Definition str1 (c : Ascii.ascii) : json := JStr (String c EmptyString).

(** [x, y = v]: iterable unpacking into exactly two targets.  A list
    yields its elements, a string its characters, a dictionary its keys. *)
Definition unpack2 (v : json) : result (json * json) :=
  match v with
  | JArr [a; b] => Ok (a, b)
  | JArr _ => Raise ValueError
  | JStr (String c (String d EmptyString)) => Ok (str1 c, str1 d)
  | JStr _ => Raise ValueError
  | JObj [(k1, _); (k2, _)] => Ok (JStr k1, JStr k2)
  | JObj _ => Raise ValueError
  | JNull | JBool _ | JNum _ | JFloat _ => Raise TypeError
  end.

(** A stored position is the tuple [(x, y)]. *)
Definition position_t : Type := json * json.

Definition pos_eqb (p q : position_t) : bool :=
  py_eqb p.1 q.1 && py_eqb p.2 q.2.

(** [old_pos != (x, y)] where [old_pos] is [None] or a stored tuple. *)
Definition pos_ne (old_pos : option position_t) (p : position_t) : bool :=
  match old_pos with
  | None => true
  | Some q => negb (pos_eqb q p)
  end.

(** ** Insertion-ordered dictionaries *)

Section Dict.
Context {V : Type}.

Fixpoint dict_get (k : pykey) (d : list (pykey * V)) : option V :=
  match d with
  | [] => None
  | (k', v) :: d' => if decide (k' = k) then Some v else dict_get k d'
  end.

(** [d[k] = v]: overwrite in place, or append a new entry. *)
Fixpoint dict_set (k : pykey) (v : V) (d : list (pykey * V)) : list (pykey * V) :=
  match d with
  | [] => [(k, v)]
  | (k', v') :: d' =>
      if decide (k' = k) then (k', v) :: d' else (k', v') :: dict_set k v d'
  end.

Definition dict_ok (d : list (pykey * V)) : Prop := NoDup (d.*1).
End Dict.

(** ** Tracker state *)

Definition Time : Type := Q.

Record ContactEvent : Type := mkContact {
  person : pykey;
  position : position_t;
  time : Time
}.

Record Tracker : Type := mkTracker {
  positions : list (pykey * position_t);
  contact_history : gmap pykey (list ContactEvent);
  max_history : Z
}.

Record QueryResponse : Type := mkResponse {
  resp_person_id : string;
  resp_contacts : list ContactEvent;
  resp_timestamp : Time
}.

(** The tracker together with what it interacts with: the clock
    ([now k] is the value of the [k]-th call of [time.time()], [ticks]
    counts the calls made) and the messages handed to [basic_publish]. *)
Record World : Type := mkWorld {
  tracker : Tracker;
  now : nat → Time;
  ticks : nat;
  outbox : list QueryResponse
}.

Definition with_tracker (w : World) (t : Tracker) : World :=
  mkWorld t (now w) (ticks w) (outbox w).

Definition with_positions (t : Tracker) (ps : list (pykey * position_t)) : Tracker :=
  mkTracker ps (contact_history t) (max_history t).

Definition with_history (t : Tracker) (h : gmap pykey (list ContactEvent)) : Tracker :=
  mkTracker (positions t) h (max_history t).

(** ** Statements with state and exceptions *)

Definition M (A : Type) : Type := World → World * result A.

Definition ret {A} (a : A) : M A := λ w, (w, Ok a).

Definition raise {A} (e : exn) : M A := λ w, (w, Raise e).

Definition bind {A B} (m : M A) (f : A → M B) : M B :=
  λ w, match m w with
       | (w', Ok a) => f a w'
       | (w', Raise e) => (w', Raise e)
       end.

Definition lift {A} (r : result A) : M A := λ w, (w, r).

Global Instance M_ret : MRet M := @ret.
Global Instance M_bind : MBind M := λ A B f m, bind m f.

(** [try: body / except Exception: logger.error(...)]. *)
Definition try_except (body : M unit) : World → World := λ w, (body w).1.

(** [time.time()]. *)
Definition time_time : M Time :=
  λ w, (mkWorld (tracker w) (now w) (S (ticks w)) (outbox w), Ok (now w (ticks w))).

Definition get_tracker : M Tracker := λ w, (w, Ok (tracker w)).

Definition put_tracker (t : Tracker) : M unit := λ w, (with_tracker w t, Ok ()).

(** [self.contact_history[k]] on the [defaultdict]: a missing key is
    created with an empty deque. *)
Definition history_index (k : pykey) : M (list ContactEvent) :=
  t ← get_tracker;
  match contact_history t !! k with
  | Some h => ret h
  | None => put_tracker (with_history t (<[k := []]> (contact_history t)));; ret []
  end.

Definition history_store (k : pykey) (h : list ContactEvent) : M unit :=
  t ← get_tracker;
  put_tracker (with_history t (<[k := h]> (contact_history t))).

(** [self.contact_history[k].popleft()]. *)
Definition history_popleft (k : pykey) : M unit :=
  h ← history_index k;
  match h with
  | [] => raise IndexError
  | _ :: h' => history_store k h'
  end.

(** [self.contact_history[k].append(c)]. *)
Definition history_append (k : pykey) (c : ContactEvent) : M unit :=
  h ← history_index k;
  history_store k (h ++ [c]).

(** ** [Tracker] methods *)

Definition update_contact_history (person_id : pykey) (contact_info : ContactEvent) : M unit :=
  h ← history_index person_id;
  t ← get_tracker;
  (if Z.of_nat (length h) >=? max_history t
   then history_popleft person_id
   else ret ());;
  history_append person_id contact_info.

(** First loop of [check_contacts]: the contacts found among the items
    of [self.positions].  The clock is read once for the event and once
    more for the log line. *)
Fixpoint scan_positions (person_id : pykey) (x y : json)
    (items : list (pykey * position_t)) (contacts : list ContactEvent)
    : M (list ContactEvent) :=
  match items with
  | [] => ret contacts
  | (other_id, other_pos) :: items' =>
      if bool_decide (other_id ≠ person_id) && pos_eqb other_pos (x, y) then
        t ← time_time;
        let contact_info := mkContact other_id (x, y) t in
        _ ← time_time;
        scan_positions person_id x y items' (contacts ++ [contact_info])
      else scan_positions person_id x y items' contacts
  end.

(** Second loop of [check_contacts]: both directions are recorded. *)
Fixpoint record_contacts (person_id : pykey) (x y : json)
    (contacts : list ContactEvent) : M unit :=
  match contacts with
  | [] => ret ()
  | contact :: contacts' =>
      update_contact_history person_id contact;;
      t ← time_time;
      let reverse_contact := mkContact person_id (x, y) t in
      update_contact_history (person contact) reverse_contact;;
      record_contacts person_id x y contacts'
  end.

Definition check_contacts (person_id : pykey) (x y : json) : M unit :=
  t ← get_tracker;
  contacts ← scan_positions person_id x y (positions t) [];
  record_contacts person_id x y contacts.

(** A delivered message body, described by what [json.loads] makes of it. *)
Inductive body_t : Type :=
| NotJson
| Json (data : json).

Definition json_loads (body : body_t) : result json :=
  match body with
  | NotJson => Raise JSONDecodeError
  | Json data => Ok data
  end.

Definition handle_position_update_try (body : body_t) : M unit :=
  data ← lift (json_loads body);
  pid_obj ← lift (getitem data "person_id");
  pos_obj ← lift (getitem data "position");
  xy ← lift (unpack2 pos_obj);
  person_id ← lift (py_hash pid_obj);
  t ← get_tracker;
  let old_pos := dict_get person_id (positions t) in
  put_tracker (with_positions t (dict_set person_id xy (positions t)));;
  if pos_ne old_pos xy then check_contacts person_id xy.1 xy.2 else ret ().

Definition handle_position_update (body : body_t) : World → World :=
  try_except (handle_position_update_try body).

(** A query body, described by what [body.decode()] makes of it. *)
Inductive query_t : Type :=
| NotUtf8
| Text (s : string).

Definition bytes_decode (body : query_t) : result string :=
  match body with
  | NotUtf8 => Raise UnicodeDecodeError
  | Text s => Ok s
  end.

Definition basic_publish (r : QueryResponse) : M unit :=
  λ w, (mkWorld (tracker w) (now w) (ticks w) (outbox w ++ [r]), Ok ()).

(** [self.contact_history.get(person_id, [])]: no entry is created. *)
Definition snapshot (t : Tracker) (k : pykey) : list ContactEvent :=
  default [] (contact_history t !! k).

Definition handle_query_try (body : query_t) : M unit :=
  person_id ← lift (bytes_decode body);
  t ← get_tracker;
  let contacts :=
    map (λ contact, mkContact (person contact) (position contact) (time contact))
        (snapshot t (KStr person_id)) in
  ts ← time_time;
  basic_publish (mkResponse person_id contacts ts).

Definition handle_query (body : query_t) : World → World :=
  try_except (handle_query_try body).

(** ** [PersonSimulator] movement *)

Definition directions : list (Z * Z) :=
  [(0, 1); (1, 0); (0, -1); (-1, 0); (1, 1); (1, -1); (-1, 1); (-1, -1)].

(** [move_randomly], with [d] the outcome of [random.choice(directions)]. *)
Definition move_randomly (board_size : Z) (pos : Z * Z) (d : Z * Z) : Z * Z :=
  let '(dx, dy) := d in
  let new_x := Z.max 0 (Z.min (board_size - 1) (pos.1 + dx)) in
  let new_y := Z.max 0 (Z.min (board_size - 1) (pos.2 + dy)) in
  (new_x, new_y).

(** The message [publish_position] sends, as [json.loads] returns it. *)
Definition published_position (person_id : string) (pos : Z * Z) (speed timestamp : Q) : body_t :=
  Json (JObj [("person_id", JStr person_id);
              ("position", JArr [JNum pos.1; JNum pos.2]);
              ("speed", JFloat speed);
              ("timestamp", JFloat timestamp)]).

(** ** Vocabulary of the statements *)

(** What one [update_contact_history] call makes of a deque. *)
Definition push (mh : Z) (h : list ContactEvent) (e : ContactEvent) : list ContactEvent :=
  (if Z.of_nat (length h) >=? mh then tail h else h) ++ [e].

(** The last [n] elements of a list. *)
Definition lastn {A} (n : nat) (l : list A) : list A := drop (length l - n) l.

(** The agent at [it] is another agent standing on [xy]. *)
Definition colocated (pid : pykey) (xy : position_t) (it : pykey * position_t) : bool :=
  bool_decide (it.1 ≠ pid) && pos_eqb it.2 xy.

Definition peers (pid : pykey) (xy : position_t) (items : list (pykey * position_t)) : list pykey :=
  (filter (λ it, colocated pid xy it = true) items).*1.

(** Number of events of [evs] that name [q]. *)
Definition naming (q : pykey) (evs : list ContactEvent) : nat :=
  length (filter (λ e, person e = q) evs).

(** Coordinates inside the grid. *)
Definition in_grid (board_size : Z) (p : position_t) : Prop :=
  ∃ x y, p = (JNum x, JNum y) ∧ 0 ≤ x < board_size ∧ 0 ≤ y < board_size.

(** A body that [handle_position_update] decodes to agent [pid] at [xy]. *)
Definition decodes_to (body : body_t) (pid : pykey) (xy : position_t) : Prop :=
  ∃ data pid_obj pos_obj,
    json_loads body = Ok data ∧
    getitem data "person_id" = Ok pid_obj ∧
    getitem data "position" = Ok pos_obj ∧
    unpack2 pos_obj = Ok xy ∧
    py_hash pid_obj = Ok pid.

(** A position value as the data model of the spec has it: a pair of
    integers. *)
Definition coordinate_pair (v : json) : Prop :=
  ∃ x y, v = JArr [JNum x; JNum y].

(** Position updates that the handler cannot read: what [json.loads]
    rejects or does not decode to an object, an object without
    [person_id] or without [position], and a [position] whose unpacking
    into two values raises. *)
Inductive malformed : body_t → Prop :=
| malformed_not_json : malformed NotJson
| malformed_not_object data :
    (∀ m, data ≠ JObj m) → malformed (Json data)
| malformed_no_person_id m :
    obj_get "person_id" m = None → malformed (Json (JObj m))
| malformed_no_position m :
    obj_get "position" m = None → malformed (Json (JObj m))
| malformed_position m v e :
    obj_get "position" m = Some v → unpack2 v = Raise e → malformed (Json (JObj m)).

Definition ingest (bodies : list body_t) (w : World) : World :=
  foldl (λ w b, handle_position_update b w) w bodies.

Definition appends (k : pykey) (es : list ContactEvent) : M unit :=
  foldr (λ e rest, update_contact_history k e;; rest) (ret ()) es.

(** The events the first loop builds for the peers [qs], the clock being
    read twice per peer from reading number [t] on. *)
Fixpoint stamp (clock : nat → Time) (t : nat) (xy : position_t) (qs : list pykey)
    : list ContactEvent :=
  match qs with
  | [] => []
  | q :: qs' => mkContact q xy (clock t) :: stamp clock (S (S t)) xy qs'
  end.

(** The history map after the second loop has gone through [cs], the
    clock being read once per contact from reading number [t] on. *)
Fixpoint recorded (mh : Z) (pid : pykey) (xy : position_t) (clock : nat → Time)
    (t : nat) (cs : list ContactEvent) (hm : gmap pykey (list ContactEvent))
    : gmap pykey (list ContactEvent) :=
  match cs with
  | [] => hm
  | c :: cs' =>
      let hm1 := <[pid := push mh (default [] (hm !! pid)) c]> hm in
      let hm2 :=
        <[person c := push mh (default [] (hm1 !! person c))
                        (mkContact pid xy (clock t))]> hm1 in
      recorded mh pid xy clock (S t) cs' hm2
  end.

Definition advance (n : nat) (w : World) : World :=
  mkWorld (tracker w) (now w) (ticks w + n)%nat (outbox w).

(** The tracker that the unit test of the scan sets up. *)
Definition test_tracker (mh : Z) : Tracker :=
  mkTracker
    [(KStr "person1", (JNum 1, JNum 1));
     (KStr "person2", (JNum 1, JNum 1));
     (KStr "person3", (JNum 2, JNum 2))]
    ∅ mh.

Definition test_world (mh : Z) (clk : nat → Time) (t : nat) : World :=
  mkWorld (test_tracker mh) clk t [].

(** A clock that advances by one second per reading. *)
Definition tick_clock : nat → Time := λ n, inject_Z (Z.of_nat n).

(** The store, the bound, the clock function and the outbox are out of
    reach of the scan, whether or not it raises. *)
Definition same_store (w w' : World) : Prop :=
  positions (tracker w') = positions (tracker w) ∧
  max_history (tracker w') = max_history (tracker w) ∧
  now w' = now w ∧ outbox w' = outbox w.

(** ** The tracker as a consumer *)

(** [Tracker.__init__]: an empty store, an empty history mapping and the
    configured bound. *)
Definition Tracker_init (mh : Z) : Tracker := mkTracker [] ∅ mh.

Definition init_world (mh : Z) (clk : nat → Time) : World :=
  mkWorld (Tracker_init mh) clk 0 [].

(** A message delivered to one of the two queues that [setup_rabbitmq]
    binds: the position queue is consumed by [handle_position_update],
    the query queue by [handle_query]. *)
Inductive delivery : Type :=
| PositionMsg (body : body_t)
| QueryMsg (body : query_t).

Definition dispatch (d : delivery) : World → World :=
  match d with
  | PositionMsg body => handle_position_update body
  | QueryMsg body => handle_query body
  end.

(** [Tracker.run]: [start_consuming] hands the deliveries, one after the
    other, to their callbacks. *)
Definition consume (ds : list delivery) (w : World) : World :=
  foldl (λ w d, dispatch d w) w ds.

(** The first five statements of [handle_position_update], which read
    the message and touch nothing. *)
Definition decode_update (body : body_t) : result (pykey * position_t) :=
  match json_loads body with
  | Raise e => Raise e
  | Ok data =>
      match getitem data "person_id" with
      | Raise e => Raise e
      | Ok pid_obj =>
          match getitem data "position" with
          | Raise e => Raise e
          | Ok pos_obj =>
              match unpack2 pos_obj with
              | Raise e => Raise e
              | Ok xy =>
                  match py_hash pid_obj with
                  | Raise e => Raise e
                  | Ok pid => Ok (pid, xy)
                  end
              end
          end
      end
  end.

(** The position that the last message of [bodies] about [pid] reports,
    [init] when there is none. *)
Definition last_report (pid : pykey) (bodies : list body_t)
    (init : option position_t) : option position_t :=
  foldl (λ acc b,
           match decode_update b with
           | Ok (p, xy) => if decide (p = pid) then Some xy else acc
           | Raise _ => acc
           end) init bodies.

(** The message is a position report about [pid]. *)
Definition reports (pid : pykey) (b : body_t) : bool :=
  match decode_update b with
  | Ok (p, _) => bool_decide (p = pid)
  | Raise _ => false
  end.

Definition position_bodies (ds : list delivery) : list body_t :=
  omap (λ d, match d with PositionMsg b => Some b | QueryMsg _ => None end) ds.

Definition queried_ids (ds : list delivery) : list string :=
  omap (λ d, match d with QueryMsg (Text a) => Some a | _ => None end) ds.

(** ** The simulator as a publisher *)

Record PersonSimulator : Type := mkSim {
  sim_person_id : string;
  sim_speed : Q;
  sim_board_size : Z;
  sim_position : Z * Z
}.

(** [publish_position]: the message sent at clock reading [ts]. *)
Definition publish_position (s : PersonSimulator) (ts : Q) : body_t :=
  published_position (sim_person_id s) (sim_position s) (sim_speed s) ts.

(** [PersonSimulator.move_randomly]: the new position is stored and
    published; [d] is the direction drawn. *)
Definition sim_move (s : PersonSimulator) (d : Z * Z) (ts : Q)
    : PersonSimulator * body_t :=
  let s' :=
    mkSim (sim_person_id s) (sim_speed s) (sim_board_size s)
      (move_randomly (sim_board_size s) (sim_position s) d) in
  (s', publish_position s' ts).

(** [PersonSimulator.run], for as many rounds as there are draws: the
    simulator at the end and the messages published, in order. *)
Fixpoint sim_run (s : PersonSimulator) (draws : list (Z * Z * Q))
    : PersonSimulator * list body_t :=
  match draws with
  | [] => (s, [])
  | (d, ts) :: draws' =>
      let '(s1, msg) := sim_move s d ts in
      let '(s2, msgs) := sim_run s1 draws' in
      (s2, msg :: msgs)
  end.

(** ** Invariants of the tracker *)

Definition known (t : Tracker) (k : pykey) : Prop := k ∈ (positions t).*1.

(** Every history belongs to a known agent, is not empty, respects the
    bound, and names known agents other than its owner. *)
Definition histories_ok (t : Tracker) : Prop :=
  ∀ k h, contact_history t !! k = Some h →
    known t k ∧ h ≠ [] ∧ Z.of_nat (length h) ≤ max_history t ∧
    ∀ e, e ∈ h → person e ≠ k ∧ known t (person e).

Definition tracker_ok (t : Tracker) : Prop :=
  dict_ok (positions t) ∧ histories_ok t.

(** The events of a history were stamped, from the oldest to the newest,
    with ever later readings of the clock [clk], all of them taken
    before reading number [t]. *)
Inductive chron (clk : nat → Time) : nat → list ContactEvent → Prop :=
| chron_nil t : chron clk t []
| chron_snoc t t' h e i :
    chron clk t h → (t ≤ i)%nat → (i < t')%nat → time e = clk i →
    chron clk t' (h ++ [e]).

Definition histories_chron (w : World) : Prop :=
  ∀ k h, contact_history (tracker w) !! k = Some h → chron (now w) (ticks w) h.

(** ** Running the statements *)

Lemma mbind_run {A B} (m : M A) (f : A → M B) w :
  (m ≫= f) w =
    match m w with
    | (w', Ok a) => f a w'
    | (w', Raise e) => (w', Raise e)
    end.
Proof. reflexivity. Qed.

Lemma history_index_run k w :
  history_index k w =
    match contact_history (tracker w) !! k with
    | Some h => (w, Ok h)
    | None =>
        (with_tracker w
           (with_history (tracker w) (<[k := []]> (contact_history (tracker w)))),
         Ok [])
    end.
Proof.
  unfold history_index. rewrite mbind_run. simpl.
  destruct (contact_history (tracker w) !! k); reflexivity.
Qed.

Lemma history_store_run k h w :
  history_store k h w =
    (with_tracker w
       (with_history (tracker w) (<[k := h]> (contact_history (tracker w)))),
     Ok ()).
Proof. reflexivity. Qed.

Ltac run :=
  repeat first
    [ rewrite mbind_run
    | rewrite history_index_run
    | rewrite history_store_run
    | progress unfold get_tracker, put_tracker, mret, M_ret, ret, raise, lift
    | progress simpl ].


Lemma update_contact_history_run k c w :
  1 ≤ max_history (tracker w) →
  update_contact_history k c w =
    (with_tracker w
       (with_history (tracker w)
          (<[k := push (max_history (tracker w)) (snapshot (tracker w) k) c]>
             (contact_history (tracker w)))),
     Ok ()).
Proof.
  intros Hmh. destruct w as [[ps hm mh] clk n out]. simpl in *.
  unfold update_contact_history, history_popleft, history_append, snapshot, push.
  run. destruct (hm !! k) as [h|] eqn:Hk; run.
  - destruct (Z.geb_spec (Z.of_nat (length h)) mh) as [Hge|Hlt]; run; rewrite Hk.
    + destruct h as [|e h]; [simpl in *; lia|]. run.
      rewrite lookup_insert_eq. run.
      unfold with_tracker, with_history. simpl. by rewrite insert_insert_eq.
    + reflexivity.
  - replace (Z.of_nat 0 >=? mh) with false
      by (symmetry; rewrite Z.geb_leb; apply Z.leb_gt; lia).
    run. rewrite lookup_insert_eq. run.
    unfold with_tracker, with_history. simpl. by rewrite insert_insert_eq.
Qed.

Lemma advance_0 w : advance 0 w = w.
Proof. destruct w. unfold advance. simpl. f_equal. lia. Qed.

Lemma peers_cons pid xy it items :
  peers pid xy (it :: items) =
    if colocated pid xy it then it.1 :: peers pid xy items else peers pid xy items.
Proof.
  unfold peers. rewrite filter_cons.
  destruct (colocated pid xy it) eqn:Hc; case_decide; try done.
Qed.

Lemma scan_positions_run pid x y items acc w :
  scan_positions pid x y items acc w =
    (advance (2 * length (peers pid (x, y) items)) w,
     Ok (acc ++ stamp (now w) (ticks w) (x, y) (peers pid (x, y) items))).
Proof.
  revert acc w. induction items as [|[other_id other_pos] items IH]; intros acc w.
  - simpl. rewrite advance_0, app_nil_r. reflexivity.
  - rewrite peers_cons. simpl scan_positions. unfold colocated at 1 2. simpl.
    destruct (bool_decide (other_id ≠ pid) && pos_eqb other_pos (x, y)).
    + unfold time_time. run. rewrite IH. simpl. rewrite <- app_assoc. simpl.
      f_equal. unfold advance. simpl. f_equal. lia.
    + apply IH.
Qed.

Lemma record_contacts_run pid x y cs w :
  1 ≤ max_history (tracker w) →
  record_contacts pid x y cs w =
    (mkWorld
       (with_history (tracker w)
          (recorded (max_history (tracker w)) pid (x, y) (now w) (ticks w) cs
             (contact_history (tracker w))))
       (now w) (ticks w + length cs)%nat (outbox w),
     Ok ()).
Proof.
  revert w. induction cs as [|c cs IH]; intros w Hmh.
  - simpl. destruct w as [[? ? ?] ? ? ?]. unfold ret, with_history. simpl.
    do 2 f_equal. lia.
  - simpl record_contacts. rewrite mbind_run, update_contact_history_run by done.
    unfold time_time. run. rewrite update_contact_history_run by done. run.
    rewrite IH by done. simpl. unfold snapshot, with_history. simpl.
    do 2 f_equal. lia.
Qed.

Lemma stamp_length clk t xy qs : length (stamp clk t xy qs) = length qs.
Proof. revert t. induction qs; intros; simpl; auto. Qed.

Lemma check_contacts_run pid x y w :
  1 ≤ max_history (tracker w) →
  let qs := peers pid (x, y) (positions (tracker w)) in
  check_contacts pid x y w =
    (mkWorld
       (with_history (tracker w)
          (recorded (max_history (tracker w)) pid (x, y) (now w)
             (ticks w + 2 * length qs)
             (stamp (now w) (ticks w) (x, y) qs)
             (contact_history (tracker w))))
       (now w) (ticks w + 2 * length qs + length qs)%nat (outbox w),
     Ok ()).
Proof.
  intros Hmh qs. unfold check_contacts. run.
  rewrite scan_positions_run. fold qs. simpl.
  rewrite record_contacts_run by done. simpl.
  rewrite stamp_length. reflexivity.
Qed.

(** ** The history map after a scan *)

Lemma stamp_persons clk t xy qs : person <$> stamp clk t xy qs = qs.
Proof. revert t. induction qs as [|q qs IH]; intros; simpl; f_equal; auto. Qed.

Lemma stamp_lookup clk t xy qs i q :
  qs !! i = Some q →
  stamp clk t xy qs !! i = Some (mkContact q xy (clk (t + 2 * i)%nat)).
Proof.
  revert t i. induction qs as [|q' qs IH]; intros t [|i] Hi; simplify_eq/=.
  - do 3 f_equal. lia.
  - rewrite (IH _ _ Hi). do 3 f_equal. lia.
Qed.

Lemma stamp_position clk t xy qs e :
  e ∈ stamp clk t xy qs → position e = xy.
Proof.
  revert t. induction qs as [|q qs IH]; intros t; simpl.
  - by intros ?%elem_of_nil.
  - intros [->|He]%elem_of_cons; [done|]. by eapply IH.
Qed.

Lemma naming_stamp clk t xy qs q :
  naming q (stamp clk t xy qs) = length (filter (λ k, k = q) qs).
Proof.
  unfold naming. revert t. induction qs as [|q' qs IH]; intros t; [done|].
  simpl. rewrite !filter_cons. simpl.
  destruct (decide (q' = q)); simpl; rewrite IH; done.
Qed.

Lemma filter_eq_NoDup (qs : list pykey) q :
  NoDup qs →
  length (filter (λ k, k = q) qs) = if bool_decide (q ∈ qs) then 1%nat else 0%nat.
Proof.
  induction 1 as [|q' qs Hnotin Hnd IH]; [done|].
  rewrite filter_cons. destruct (decide (q' = q)) as [->|Hne].
  - simpl. rewrite IH. rewrite (bool_decide_eq_false_2 _ Hnotin).
    rewrite bool_decide_eq_true_2; [done|]. apply elem_of_cons; auto.
  - rewrite IH. apply f_equal with (f := λ b : bool, if b then 1%nat else 0%nat).
    apply bool_decide_ext. rewrite elem_of_cons. split; [by right|]. by intros [->|?].
Qed.

Lemma recorded_other mh pid xy clk t cs hm k :
  k ≠ pid → k ∉ person <$> cs →
  recorded mh pid xy clk t cs hm !! k = hm !! k.
Proof.
  intros Hk. revert t hm. induction cs as [|c cs IH]; intros t hm Hnotin; [done|].
  simpl in *. apply not_elem_of_cons in Hnotin as [Hc Hcs].
  rewrite IH by done. by rewrite !lookup_insert_ne.
Qed.

Lemma recorded_self mh pid xy clk t cs hm :
  pid ∉ person <$> cs →
  default [] (recorded mh pid xy clk t cs hm !! pid) =
    foldl (push mh) (default [] (hm !! pid)) cs.
Proof.
  revert t hm. induction cs as [|c cs IH]; intros t hm Hnotin; [done|].
  simpl in *. apply not_elem_of_cons in Hnotin as [Hc Hcs].
  rewrite IH by done. rewrite lookup_insert_ne by done.
  by rewrite lookup_insert_eq.
Qed.

Lemma recorded_peer mh pid xy clk t cs hm i c :
  person c ≠ pid → NoDup (person <$> cs) → cs !! i = Some c →
  recorded mh pid xy clk t cs hm !! person c =
    Some (push mh (default [] (hm !! person c))
            (mkContact pid xy (clk (t + i)%nat))).
Proof.
  intros Hk. revert t hm i.
  induction cs as [|c' cs IH]; intros t hm i Hnd Hi; [done|].
  simpl in Hnd. apply NoDup_cons in Hnd as [Hnotin Hnd].
  destruct i as [|i]; simplify_eq/=.
  - rewrite recorded_other by done.
    rewrite lookup_insert_eq, lookup_insert_ne by done.
    do 4 f_equal. lia.
  - assert (person c ≠ person c') as Hne.
    { intros Heq. apply Hnotin. rewrite <- Heq.
      apply list_elem_of_fmap. exists c. split; [done|].
      by eapply list_elem_of_lookup_2. }
    rewrite (IH _ _ i) by done. rewrite !lookup_insert_ne by done.
    do 4 f_equal. lia.
Qed.

(** ** The peers found by a scan *)

Lemma dict_get_elem_of {V} (d : list (pykey * V)) k v :
  dict_ok d → (dict_get k d = Some v ↔ (k, v) ∈ d).
Proof.
  unfold dict_ok. induction d as [|[k' v'] d IH]; simpl; intros Hnd.
  - split; [done|]. by intros ?%elem_of_nil.
  - apply NoDup_cons in Hnd as [Hnotin Hnd]. rewrite elem_of_cons.
    destruct (decide (k' = k)) as [->|Hne].
    + split; [intros [= ->]; by left|].
      intros [[= ->]|Hin]; [done|]. exfalso. apply Hnotin.
      apply list_elem_of_fmap. by exists (k, v).
    + rewrite IH by done. split; [by right|]. by intros [[= ? ?]|?].
Qed.

Lemma elem_of_peers pid xy items q :
  q ∈ peers pid xy items ↔
    q ≠ pid ∧ ∃ p, (q, p) ∈ items ∧ pos_eqb p xy = true.
Proof.
  unfold peers. rewrite list_elem_of_fmap. split.
  - intros [[q' p] [-> [Hc Hin]%list_elem_of_filter]]. simpl.
    unfold colocated in Hc. simpl in Hc.
    apply andb_true_iff in Hc as [Hne%bool_decide_eq_true Hp]. eauto.
  - intros [Hne [p [Hin Hp]]]. exists (q, p). split; [done|].
    apply list_elem_of_filter. split; [|done].
    unfold colocated. simpl. rewrite bool_decide_eq_true_2 by done. done.
Qed.

Lemma peers_NoDup pid xy (items : list (pykey * position_t)) :
  dict_ok items → NoDup (peers pid xy items).
Proof.
  unfold dict_ok. induction items as [|[k v] items IH]; intros Hnd.
  - constructor.
  - simpl in Hnd. apply NoDup_cons in Hnd as [Hnotin Hnd].
    rewrite peers_cons. destruct (colocated pid xy (k, v)); [|by apply IH].
    simpl. apply NoDup_cons. split; [|by apply IH].
    intros [_ [p [Hin _]]]%elem_of_peers. apply Hnotin.
    apply list_elem_of_fmap. by exists (k, p).
Qed.

Lemma peers_not_self pid xy items : pid ∉ peers pid xy items.
Proof. by intros [? _]%elem_of_peers. Qed.

Lemma peers_dict_get pid xy (items : list (pykey * position_t)) q :
  dict_ok items →
  q ∈ peers pid xy items ↔
    q ≠ pid ∧ ∃ p, dict_get q items = Some p ∧ pos_eqb p xy = true.
Proof.
  intros Hok. rewrite elem_of_peers. split.
  - intros [Hne [p [Hin Hp]]]. split; [done|]. exists p.
    by rewrite dict_get_elem_of.
  - intros [Hne [p [Hget Hp]]]. split; [done|]. exists p.
    by rewrite <- dict_get_elem_of.
Qed.

(** What one call of [check_contacts] does, with [qs] the peers found and
    [t0] the number of clock readings made before the call. *)
Lemma check_contacts_spec w pid x y :
  dict_ok (positions (tracker w)) →
  1 ≤ max_history (tracker w) →
  let mh := max_history (tracker w) in
  let qs := peers pid (x, y) (positions (tracker w)) in
  let evs := stamp (now w) (ticks w) (x, y) qs in
  ∃ w',
    check_contacts pid x y w = (w', Ok ()) ∧
    positions (tracker w') = positions (tracker w) ∧
    max_history (tracker w') = mh ∧
    now w' = now w ∧
    ticks w' = (ticks w + 3 * length qs)%nat ∧
    outbox w' = outbox w ∧
    snapshot (tracker w') pid = foldl (push mh) (snapshot (tracker w) pid) evs ∧
    (qs = [] → contact_history (tracker w') = contact_history (tracker w)) ∧
    (∀ i q, qs !! i = Some q →
       contact_history (tracker w') !! q =
         Some (push mh (snapshot (tracker w) q)
                 (mkContact pid (x, y)
                    (now w (ticks w + 2 * length qs + i)%nat)))) ∧
    (∀ q, q ≠ pid → q ∉ qs →
       contact_history (tracker w') !! q = contact_history (tracker w) !! q).
Proof.
  intros Hok Hmh mh qs evs. eexists. split; [by apply check_contacts_run|].
  simpl. fold qs evs mh.
  assert (Hps : person <$> evs = qs) by apply stamp_persons.
  assert (Hself : pid ∉ person <$> evs).
  { rewrite Hps. apply peers_not_self. }
  repeat split; try done.
  - lia.
  - unfold snapshot. simpl. by apply recorded_self.
  - intros Hnil. unfold evs. rewrite Hnil. reflexivity.
  - intros i q Hi.
    pose proof (stamp_lookup (now w) (ticks w) (x, y) qs i q Hi) as Hev.
    fold evs in Hev.
    assert (q ≠ pid) as Hne.
    { intros ->. eapply peers_not_self. by eapply list_elem_of_lookup_2. }
    apply (recorded_peer mh pid (x, y) (now w) (ticks w + 2 * length qs) evs
             (contact_history (tracker w)) i
             (mkContact q (x, y) (now w (ticks w + 2 * i)%nat))); [done| |done].
    rewrite Hps. by apply peers_NoDup.
  - intros q Hne Hnotin. apply recorded_other; [done|]. by rewrite Hps.
Qed.

(** ** The contact scan *)

(** C1. For every position store and every call [check_contacts pid x y]:
    the events [evs] appended to the agent's history contain exactly one
    event naming each other agent whose stored position equals [(x, y)]
    and none naming the agent itself or an agent elsewhere; the history
    of each such peer receives exactly one event, naming the agent; the
    histories of all other agents are left as they were. *)
Theorem check_contacts_records_each_pair_once w pid x y :
  dict_ok (positions (tracker w)) →
  1 ≤ max_history (tracker w) →
  let mh := max_history (tracker w) in
  let shares_cell q :=
    q ≠ pid ∧
    ∃ p, dict_get q (positions (tracker w)) = Some p ∧ pos_eqb p (x, y) = true in
  ∃ w' evs,
    check_contacts pid x y w = (w', Ok ()) ∧
    positions (tracker w') = positions (tracker w) ∧
    snapshot (tracker w') pid = foldl (push mh) (snapshot (tracker w) pid) evs ∧
    (∀ e, e ∈ evs → position e = (x, y)) ∧
    naming pid evs = 0%nat ∧
    (∀ q, shares_cell q →
       naming q evs = 1%nat ∧
       ∃ e, person e = pid ∧ position e = (x, y) ∧
            contact_history (tracker w') !! q =
              Some (push mh (snapshot (tracker w) q) e)) ∧
    (∀ q, q ≠ pid → ¬ shares_cell q →
       naming q evs = 0%nat ∧
       contact_history (tracker w') !! q = contact_history (tracker w) !! q).
Proof.
  intros Hok Hmh mh shares_cell.
  destruct (check_contacts_spec w pid x y Hok Hmh)
    as (w' & Hrun & Hpos & _ & _ & _ & _ & Hself & _ & Hpeer & Hother).
  set (qs := peers pid (x, y) (positions (tracker w))) in *.
  assert (Hcount : ∀ q, naming q (stamp (now w) (ticks w) (x, y) qs) =
                        if bool_decide (q ∈ qs) then 1%nat else 0%nat).
  { intros q. rewrite naming_stamp. apply filter_eq_NoDup.
    by apply peers_NoDup. }
  assert (Hin : ∀ q, q ∈ qs ↔ shares_cell q).
  { intros q. by apply peers_dict_get. }
  exists w', (stamp (now w) (ticks w) (x, y) qs).
  split_and!; try done.
  - intros e. apply stamp_position.
  - rewrite Hcount. rewrite bool_decide_eq_false_2; [done|].
    apply peers_not_self.
  - intros q Hq. apply Hin in Hq. split.
    + rewrite Hcount. by rewrite bool_decide_eq_true_2.
    + apply list_elem_of_lookup_1 in Hq as [i Hi]. eexists.
      split_and!; [| |by apply (Hpeer i)]; done.
  - intros q Hne Hq. rewrite <- Hin in Hq. split.
    + rewrite Hcount. by rewrite bool_decide_eq_false_2.
    + by apply Hother.
Qed.

Lemma test_tracker_ok mh : dict_ok (positions (test_tracker mh)).
Proof. unfold dict_ok. simpl. apply (bool_decide_unpack _). by vm_compute. Qed.

Lemma check_contacts_records_each_pair_once_witness :
  ∃ w' evs,
    check_contacts (KStr "person1") (JNum 1) (JNum 1) (test_world 100 tick_clock 0)
      = (w', Ok ()) ∧
    snapshot (tracker w') (KStr "person1") = foldl (push 100) [] evs ∧
    naming (KStr "person2") evs = 1%nat.
Proof.
  destruct (check_contacts_records_each_pair_once
              (test_world 100 tick_clock 0) (KStr "person1") (JNum 1) (JNum 1))
    as (w' & evs & Hrun & _ & Hself & _ & _ & Hpeer & _).
  - apply test_tracker_ok.
  - simpl. lia.
  - exists w', evs. split_and!; [done|done|].
    apply Hpeer. split; [done|]. by exists (JNum 1, JNum 1).
Defined.

(** C7. When a scan finds agent [pid] and peer [q] on the same cell, the
    event [e] appended to the agent's history and the mirror event [e']
    appended to the peer's history carry the same position, the new
    cell, and their timestamps are two different readings of the clock
    taken during the call, the mirror's being the later one: on a clock
    that advances between readings the two stamps differ. *)
Theorem contact_pair_same_cell_own_stamps w pid x y q p :
  dict_ok (positions (tracker w)) →
  1 ≤ max_history (tracker w) →
  q ≠ pid →
  dict_get q (positions (tracker w)) = Some p →
  pos_eqb p (x, y) = true →
  let mh := max_history (tracker w) in
  ∃ w' evs e e' i j,
    check_contacts pid x y w = (w', Ok ()) ∧
    snapshot (tracker w') pid = foldl (push mh) (snapshot (tracker w) pid) evs ∧
    e ∈ evs ∧ person e = q ∧
    contact_history (tracker w') !! q = Some (push mh (snapshot (tracker w) q) e') ∧
    person e' = pid ∧
    position e = (x, y) ∧ position e' = (x, y) ∧
    time e = now w i ∧ time e' = now w j ∧
    (ticks w ≤ i < j)%nat ∧ (j < ticks w')%nat ∧
    ((∀ a b, (a < b)%nat → (now w a < now w b)%Q) → (time e < time e')%Q).
Proof.
  intros Hok Hmh Hne Hget Hp mh.
  destruct (check_contacts_spec w pid x y Hok Hmh)
    as (w' & Hrun & _ & _ & _ & Hticks & _ & Hself & _ & Hpeer & _).
  set (qs := peers pid (x, y) (positions (tracker w))) in *.
  assert (q ∈ qs) as [k Hk]%list_elem_of_lookup_1.
  { apply peers_dict_get; eauto. }
  pose proof (lookup_lt_Some _ _ _ Hk) as Hlt.
  pose proof (stamp_lookup (now w) (ticks w) (x, y) qs k q Hk) as Hev.
  exists w', (stamp (now w) (ticks w) (x, y) qs),
    (mkContact q (x, y) (now w (ticks w + 2 * k)%nat)),
    (mkContact pid (x, y) (now w (ticks w + 2 * length qs + k)%nat)),
    (ticks w + 2 * k)%nat, (ticks w + 2 * length qs + k)%nat.
  split_and!; try done.
  - by eapply list_elem_of_lookup_2.
  - by apply Hpeer.
  - lia.
  - lia.
  - lia.
  - intros Hclk. simpl. apply Hclk. lia.
Qed.

Lemma contact_pair_same_cell_own_stamps_witness :
  ∃ w' e e',
    check_contacts (KStr "person1") (JNum 1) (JNum 1) (test_world 100 tick_clock 0)
      = (w', Ok ()) ∧
    contact_history (tracker w') !! KStr "person2" = Some (push 100 [] e') ∧
    person e = KStr "person2" ∧ person e' = KStr "person1" ∧
    position e = position e' ∧ (time e < time e')%Q.
Proof.
  destruct (contact_pair_same_cell_own_stamps
              (test_world 100 tick_clock 0) (KStr "person1") (JNum 1) (JNum 1)
              (KStr "person2") (JNum 1, JNum 1))
    as (w' & evs & e & e' & i & j & Hrun & _ & _ & He & Hq & He' & Hp & Hp'
        & _ & _ & _ & _ & Hlt).
  - apply test_tracker_ok.
  - simpl. lia.
  - done.
  - reflexivity.
  - reflexivity.
  - exists w', e, e'. split_and!; try done.
    + congruence.
    + apply Hlt. intros a b Hab. unfold tick_clock. simpl.
      rewrite <- Zlt_Qlt. lia.
Defined.




(** ** The bounded history *)

Lemma lastn_le {A} (n : nat) (l : list A) : (length l ≤ n)%nat → lastn n l = l.
Proof. intros Hle. unfold lastn. by replace (length l - n)%nat with 0%nat by lia. Qed.

Lemma lastn_length {A} (n : nat) (l : list A) :
  length (lastn n l) = Nat.min n (length l).
Proof. unfold lastn. rewrite length_drop. lia. Qed.

Lemma lastn_snoc {A} (n : nat) (l : list A) (x : A) :
  (1 ≤ n)%nat →
  lastn n (l ++ [x]) = lastn (n - 1) l ++ [x].
Proof.
  intros Hn. unfold lastn. rewrite length_app. simpl.
  replace (length l + 1 - n)%nat with (length l - (n - 1))%nat by lia.
  rewrite drop_app_le by lia. done.
Qed.

Lemma push_lastn (n : nat) (l : list ContactEvent) (e : ContactEvent) :
  (1 ≤ n)%nat → (length l ≤ n)%nat →
  push (Z.of_nat n) l e = lastn n (l ++ [e]).
Proof.
  intros Hn Hlen. unfold push. rewrite lastn_snoc by done.
  destruct (Z.geb_spec (Z.of_nat (length l)) (Z.of_nat n)) as [Hge|Hlt].
  - assert (length l = n) as Heq by lia. unfold lastn.
    replace (length l - (n - 1))%nat with 1%nat by lia.
    by destruct l.
  - rewrite lastn_le by lia. done.
Qed.

Lemma lastn_lastn_app {A} (n : nat) (l k : list A) :
  lastn n (lastn n l ++ k) = lastn n (l ++ k).
Proof.
  destruct (decide (length l ≤ n)%nat) as [Hle|Hgt].
  - by rewrite (lastn_le n l).
  - unfold lastn at 1 3. rewrite !length_app, lastn_length.
    replace (Nat.min n (length l) + length k - n)%nat with (length k) by lia.
    replace (length l + length k - n)%nat
      with ((length l - n) + length k)%nat by lia.
    rewrite <- drop_drop. rewrite (drop_app_le l) by lia. done.
Qed.

Lemma appends_spec k es w :
  1 ≤ max_history (tracker w) →
  let n := Z.to_nat (max_history (tracker w)) in
  (length (snapshot (tracker w) k) ≤ n)%nat →
  ∃ w',
    appends k es w = (w', Ok ()) ∧
    max_history (tracker w') = max_history (tracker w) ∧
    positions (tracker w') = positions (tracker w) ∧
    snapshot (tracker w') k = lastn n (snapshot (tracker w) k ++ es) ∧
    (∀ k', k' ≠ k →
       contact_history (tracker w') !! k' = contact_history (tracker w) !! k').
Proof.
  revert w. induction es as [|e es IH]; intros w Hmh n Hlen.
  - exists w. rewrite app_nil_r, lastn_le by done. done.
  - simpl appends. rewrite mbind_run, update_contact_history_run by done.
    set (w1 := with_tracker w _).
    assert (Hsnap : snapshot (tracker w1) k
                    = lastn n (snapshot (tracker w) k ++ [e])).
    { unfold w1, snapshot at 1. simpl. rewrite lookup_insert_eq. simpl.
      rewrite <- push_lastn by (unfold n; lia). unfold n.
      rewrite Z2Nat.id by lia. done. }
    destruct (IH w1) as (w' & Hrun & Hmh' & Hpos & Hk & Hother).
    + done.
    + rewrite Hsnap, lastn_length. unfold w1. simpl. fold n. lia.
    + exists w'. split_and!; try done.
      * rewrite Hk, Hsnap. unfold w1. simpl. fold n.
        rewrite lastn_lastn_app. by rewrite <- app_assoc.
      * intros k' Hne. rewrite Hother by done. unfold w1. simpl.
        by rewrite lookup_insert_ne.
Qed.

Lemma appends_app k es1 es2 w w1 :
  appends k es1 w = (w1, Ok ()) →
  appends k (es1 ++ es2) w = appends k es2 w1.
Proof.
  revert w. induction es1 as [|e es1 IH]; intros w Hrun.
  - unfold appends in Hrun. simpl in Hrun. unfold ret in Hrun. by simplify_eq.
  - change (appends k (e :: es1) w) with
      ((update_contact_history k e ≫= λ _, appends k es1) w) in Hrun.
    change (appends k ((e :: es1) ++ es2) w) with
      ((update_contact_history k e ≫= λ _, appends k (es1 ++ es2)) w).
    rewrite mbind_run in *.
    destruct (update_contact_history k e w) as [w0 [[]|ex]]; [|done].
    by apply IH.
Qed.

Lemma copy_contacts (l : list ContactEvent) :
  map (λ contact, mkContact (person contact) (position contact) (time contact)) l = l.
Proof. induction l as [|[] l IH]; simpl; by f_equal. Qed.

Lemma handle_query_try_run s w :
  handle_query_try (Text s) w =
    (mkWorld (tracker w) (now w) (S (ticks w))
       (outbox w ++
          [mkResponse s (snapshot (tracker w) (KStr s)) (now w (ticks w))]),
     Ok ()).
Proof.
  unfold handle_query_try, time_time, basic_publish. run.
  by rewrite copy_contacts.
Qed.

(** C2. For every agent and every sequence [es] of events appended with
    [update_contact_history], starting from a history within the bound:
    every call returns, after every prefix of the sequence the history
    holds at most [max_history] events, the history is the last
    [max_history] events of what was there followed by [es], in call
    order, hence exactly the last [max_history] events of [es] once
    that many were appended, and a query for the agent returns this
    list in this order. *)
Theorem history_bounded_fifo k es w :
  1 ≤ max_history (tracker w) →
  let n := Z.to_nat (max_history (tracker w)) in
  (length (snapshot (tracker w) k) ≤ n)%nat →
  ∃ w',
    appends k es w = (w', Ok ()) ∧
    (∀ es1 es2, es = es1 ++ es2 →
       ∃ w1, appends k es1 w = (w1, Ok ()) ∧
             appends k es2 w1 = (w', Ok ()) ∧
             (length (snapshot (tracker w1) k) ≤ n)%nat) ∧
    (length (snapshot (tracker w') k) ≤ n)%nat ∧
    snapshot (tracker w') k = lastn n (snapshot (tracker w) k ++ es) ∧
    ((n ≤ length es)%nat → snapshot (tracker w') k = lastn n es) ∧
    (∀ a, k = KStr a →
       outbox (handle_query (Text a) w') =
         outbox w' ++
           [mkResponse a (lastn n (snapshot (tracker w) k ++ es))
              (now w' (ticks w'))]).
Proof.
  intros Hmh n Hlen.
  destruct (appends_spec k es w Hmh Hlen) as (w' & Hrun & _ & _ & Hk & _).
  fold n in Hk. exists w'. split_and!; try done.
  - intros es1 es2 ->.
    destruct (appends_spec k es1 w Hmh Hlen) as (w1 & Hrun1 & _ & _ & Hk1 & _).
    exists w1. split_and!; [done| |].
    + by rewrite <- (appends_app k es1 es2 w w1).
    + fold n in Hk1. rewrite Hk1, lastn_length. lia.
  - rewrite Hk, lastn_length. lia.
  - intros Hes. rewrite Hk. unfold lastn. rewrite length_app.
    replace (length (snapshot (tracker w) k) + length es - n)%nat
      with (length (snapshot (tracker w) k) + (length es - n))%nat by lia.
    by rewrite drop_app_add.
  - intros a ->. rewrite <- Hk. unfold handle_query, try_except.
    by rewrite handle_query_try_run.
Qed.

Lemma history_bounded_fifo_witness :
  let e (i : Z) := mkContact (KStr "test2") (JNum 1, JNum 1) (inject_Z i) in
  let w := mkWorld (mkTracker [] ∅ 3) tick_clock 0 [] in
  ∃ w',
    appends (KStr "test1") [e 1; e 2; e 3; e 4; e 5] w = (w', Ok ()) ∧
    snapshot (tracker w') (KStr "test1") = [e 3; e 4; e 5] ∧
    resp_contacts <$> last (outbox (handle_query (Text "test1") w'))
      = Some [e 3; e 4; e 5].
Proof.
  intros e w.
  destruct (history_bounded_fifo (KStr "test1") [e 1; e 2; e 3; e 4; e 5] w)
    as (w' & Hrun & _ & _ & Hk & _ & Hq).
  - unfold w. simpl. lia.
  - unfold w. vm_compute. lia.
  - exists w'. split_and!; [done|by rewrite Hk|].
    rewrite (Hq "test1") by done. rewrite last_snoc. reflexivity.
Defined.

(** ** Queries *)

(** C5. For every agent id the query is answered and no exception
    reaches the handler's [except] branch: one response is published,
    carrying the queried id, the clock reading taken by the call, and
    the agent's history; for an agent without recorded contacts, seen
    or not, the contacts field is the empty list. *)
Theorem query_always_answers (a : string) w :
  ∃ w' r,
    handle_query_try (Text a) w = (w', Ok ()) ∧
    handle_query (Text a) w = w' ∧
    outbox w' = outbox w ++ [r] ∧
    resp_person_id r = a ∧
    resp_timestamp r = now w (ticks w) ∧
    resp_contacts r = snapshot (tracker w) (KStr a) ∧
    (contact_history (tracker w) !! KStr a = None ∨
     contact_history (tracker w) !! KStr a = Some [] →
     resp_contacts r = []).
Proof.
  eexists _, _. split; [apply handle_query_try_run|].
  unfold handle_query, try_except. rewrite handle_query_try_run. simpl.
  split_and!; try reflexivity.
  unfold snapshot. by intros [->| ->].
Qed.

(** C10. Handling a query, for a known or an unknown agent or for a body
    that is not text, leaves the position store, every contact history
    and the history bound as they were; in particular an agent without
    an entry in the history mapping still has none afterwards, whereas
    indexing the mapping for that agent would have created an empty
    entry. *)
Theorem query_leaves_tracker_unchanged body w :
  tracker (handle_query body w) = tracker w ∧
  ∀ a, body = Text a →
       contact_history (tracker w) !! KStr a = None →
       contact_history (tracker (handle_query body w)) !! KStr a = None ∧
       contact_history (tracker (history_index (KStr a) w).1) !! KStr a = Some [].
Proof.
  assert (Htr : tracker (handle_query body w) = tracker w).
  { destruct body as [|a]; [done|].
    unfold handle_query, try_except. by rewrite handle_query_try_run. }
  split; [done|]. intros a -> Hnone. rewrite Htr. split; [done|].
  rewrite history_index_run, Hnone. simpl. by rewrite lookup_insert_eq.
Qed.

Lemma query_leaves_tracker_unchanged_witness :
  contact_history
    (tracker (handle_query (Text "ghost") (test_world 100 tick_clock 0)))
    !! KStr "ghost" = None.
Proof.
  apply (query_leaves_tracker_unchanged (Text "ghost") (test_world 100 tick_clock 0)).
  - reflexivity.
  - reflexivity.
Defined.

(** ** Position updates *)

Lemma dict_get_set_eq {V} k (v : V) d : dict_get k (dict_set k v d) = Some v.
Proof.
  induction d as [|[k' v'] d IH]; simpl.
  - by rewrite decide_True.
  - destruct (decide (k' = k)) as [->|Hne]; simpl.
    + by rewrite decide_True.
    + by rewrite decide_False.
Qed.

Lemma dict_get_set_ne {V} k k' (v : V) d :
  k ≠ k' → dict_get k' (dict_set k v d) = dict_get k' d.
Proof.
  intros Hne. induction d as [|[k0 v0] d IH]; simpl.
  - by rewrite decide_False.
  - destruct (decide (k0 = k)) as [->|Hne0]; simpl.
    + by rewrite !decide_False.
    + destruct (decide (k0 = k')); [done|]. apply IH.
Qed.

Lemma dict_set_keys {V} k (v : V) d :
  (dict_set k v d).*1 = if bool_decide (k ∈ d.*1) then d.*1 else d.*1 ++ [k].
Proof.
  induction d as [|[k' v'] d IH]; [done|].
  simpl dict_set. destruct (decide (k' = k)) as [->|Hne]; rewrite !fmap_cons.
  - rewrite bool_decide_eq_true_2; [done|]. by left.
  - rewrite IH. simpl fst. destruct (bool_decide (k ∈ d.*1)) eqn:Hin.
    + apply bool_decide_eq_true in Hin.
      rewrite bool_decide_eq_true_2; [done|]. by right.
    + apply bool_decide_eq_false in Hin.
      rewrite bool_decide_eq_false_2; [done|].
      rewrite elem_of_cons. by intros [->|?].
Qed.

Lemma dict_set_ok {V} k (v : V) d : dict_ok d → dict_ok (dict_set k v d).
Proof.
  unfold dict_ok. intros Hnd. rewrite dict_set_keys.
  destruct (bool_decide (k ∈ d.*1)) eqn:Hin; [done|].
  apply bool_decide_eq_false in Hin.
  apply NoDup_app. split_and!; [done| |apply NoDup_singleton].
  intros k' Hk' ->%list_elem_of_singleton. done.
Qed.

Lemma dict_set_Forall {V} (P : pykey * V → Prop) k v d :
  (∀ k', P (k', v)) → Forall P d → Forall P (dict_set k v d).
Proof.
  intros Hv. induction 1 as [|[k' v'] d Hx Hd IH]; simpl.
  - by constructor.
  - destruct (decide (k' = k)); constructor; auto.
Qed.

Lemma same_store_trans w1 w2 w3 :
  same_store w1 w2 → same_store w2 w3 → same_store w1 w3.
Proof. unfold same_store. intros (?&?&?&?) (?&?&?&?). split_and!; congruence. Qed.

Lemma update_contact_history_frame k c w :
  same_store w (update_contact_history k c w).1.
Proof.
  destruct w as [[ps hm mh] clk n out].
  unfold update_contact_history, history_popleft, history_append. run.
  destruct (hm !! k) as [h|] eqn:Hk; run.
  - destruct (Z.of_nat (length h) >=? mh); run; rewrite Hk.
    + destruct h as [|e h]; run; [done|]. rewrite lookup_insert_eq. by run.
    + by run.
  - destruct (Z.of_nat 0 >=? mh); run; rewrite lookup_insert_eq; by run.
Qed.

Lemma record_contacts_frame pid x y cs w :
  same_store w (record_contacts pid x y cs w).1.
Proof.
  revert w. induction cs as [|c cs IH]; intros w; [done|].
  simpl record_contacts. rewrite mbind_run.
  pose proof (update_contact_history_frame pid c w) as H1.
  destruct (update_contact_history pid c w) as [w1 [[]|e1]]; [|done].
  unfold time_time. run.
  set (w2 := mkWorld _ _ _ _).
  assert (same_store w w2) as H2 by (destruct H1 as (?&?&?&?); done).
  pose proof (update_contact_history_frame
                (person c) (mkContact pid (x, y) (now w1 (ticks w1))) w2) as H3.
  destruct (update_contact_history _ _ w2) as [w3 [[]|e3]]; simpl in *.
  - eapply same_store_trans; [|apply IH]. by eapply same_store_trans.
  - by eapply same_store_trans.
Qed.

Lemma check_contacts_frame pid x y w :
  same_store w (check_contacts pid x y w).1.
Proof.
  unfold check_contacts. run. rewrite scan_positions_run. simpl.
  eapply same_store_trans; [|apply record_contacts_frame]. done.
Qed.

Lemma handle_position_update_try_run body pid xy w :
  decodes_to body pid xy →
  handle_position_update_try body w =
    let w1 :=
      with_tracker w
        (with_positions (tracker w) (dict_set pid xy (positions (tracker w)))) in
    if pos_ne (dict_get pid (positions (tracker w))) xy
    then check_contacts pid xy.1 xy.2 w1
    else (w1, Ok ()).
Proof.
  intros (data & pid_obj & pos_obj & Hload & Hpid & Hpos & Hxy & Hhash).
  unfold handle_position_update_try.
  rewrite Hload. run. rewrite Hpid. run. rewrite Hpos. run.
  rewrite Hxy. run. rewrite Hhash. run.
  by destruct (pos_ne (dict_get pid (positions (tracker w))) xy).
Qed.

Lemma decodes_or_raises body w :
  (∃ pid xy, decodes_to body pid xy) ∨
  (∃ e, handle_position_update_try body w = (w, Raise e)).
Proof.
  unfold handle_position_update_try.
  destruct (json_loads body) as [data|e] eqn:Hload; [|right; by eexists].
  destruct (getitem data "person_id") as [pid_obj|e] eqn:Hpid;
    [|right; run; rewrite Hpid; by eexists].
  destruct (getitem data "position") as [pos_obj|e] eqn:Hpos;
    [|right; run; rewrite Hpid; run; rewrite Hpos; by eexists].
  destruct (unpack2 pos_obj) as [xy|e] eqn:Hxy;
    [|right; run; rewrite Hpid; run; rewrite Hpos; run; rewrite Hxy;
      by eexists].
  destruct (py_hash pid_obj) as [pid|e] eqn:Hhash;
    [|right; run; rewrite Hpid; run; rewrite Hpos; run; rewrite Hxy; run;
      rewrite Hhash; by eexists].
  left. exists pid, xy, data, pid_obj, pos_obj. done.
Qed.

(** What the scan does for one of the peers it finds. *)
Lemma check_contacts_peer w pid x y q p :
  dict_ok (positions (tracker w)) →
  1 ≤ max_history (tracker w) →
  q ≠ pid →
  dict_get q (positions (tracker w)) = Some p →
  pos_eqb p (x, y) = true →
  let mh := max_history (tracker w) in
  let w' := (check_contacts pid x y w).1 in
  ∃ evs e',
    snapshot (tracker w') pid = foldl (push mh) (snapshot (tracker w) pid) evs ∧
    naming q evs = 1%nat ∧
    person e' = pid ∧ position e' = (x, y) ∧
    contact_history (tracker w') !! q =
      Some (push mh (snapshot (tracker w) q) e').
Proof.
  intros Hok Hmh Hne Hget Hp mh w'.
  destruct (check_contacts_spec w pid x y Hok Hmh)
    as (w2 & Hrun & _ & _ & _ & _ & _ & Hself & _ & Hpeer & _).
  unfold w'. rewrite Hrun. simpl.
  set (qs := peers pid (x, y) (positions (tracker w))) in *.
  assert (q ∈ qs) as Hin by (apply peers_dict_get; eauto).
  destruct (list_elem_of_lookup_1 _ _ Hin) as [i Hi].
  eexists _, _. split_and!; [done| | | |by apply (Hpeer i)]; try done.
  rewrite naming_stamp, filter_eq_NoDup by (by apply peers_NoDup).
  by rewrite bool_decide_eq_true_2.
Qed.

Lemma handle_position_update_positions body w :
  (∃ pid xy, decodes_to body pid xy ∧
     positions (tracker (handle_position_update body w)) =
       dict_set pid xy (positions (tracker w))) ∨
  handle_position_update body w = w.
Proof.
  destruct (decodes_or_raises body w) as [(pid & xy & Hdec)|[e He]].
  - left. exists pid, xy. split; [done|].
    unfold handle_position_update, try_except.
    rewrite (handle_position_update_try_run body pid xy w Hdec). simpl.
    destruct (pos_ne _ _); [|done].
    by destruct (check_contacts_frame pid xy.1 xy.2
                   (with_tracker w (with_positions (tracker w)
                      (dict_set pid xy (positions (tracker w)))))) as [-> _].
  - right. unfold handle_position_update, try_except. by rewrite He.
Qed.

(** C3. For every position update that decodes to agent [pid] at
    [(x, y)]: the store is overwritten with the new position whatever
    the old one was; the scan runs exactly when the old position, or its
    absence, differs from the new one; re-publishing the stored position
    changes no history, whoever shares the cell; and the first report of
    an unseen agent on a cell occupied by [q] appends to the agent's
    history events of which exactly one names [q], and to [q]'s history
    one event naming the agent. *)
Theorem position_update_scans_iff_moved body pid x y w :
  decodes_to body pid (x, y) →
  let ps := positions (tracker w) in
  let mh := max_history (tracker w) in
  let old_pos := dict_get pid ps in
  let w1 := with_tracker w (with_positions (tracker w) (dict_set pid (x, y) ps)) in
  let w' := handle_position_update body w in
  positions (tracker w') = dict_set pid (x, y) ps ∧
  dict_get pid (positions (tracker w')) = Some (x, y) ∧
  (pos_ne old_pos (x, y) = true → w' = (check_contacts pid x y w1).1) ∧
  (pos_ne old_pos (x, y) = false → w' = w1) ∧
  (∀ p, old_pos = Some p → pos_eqb p (x, y) = true →
     contact_history (tracker w') = contact_history (tracker w)) ∧
  (old_pos = None → dict_ok ps → 1 ≤ mh →
   ∀ q p, dict_get q ps = Some p → pos_eqb p (x, y) = true →
     ∃ evs e',
       snapshot (tracker w') pid = foldl (push mh) (snapshot (tracker w) pid) evs ∧
       naming q evs = 1%nat ∧
       person e' = pid ∧ position e' = (x, y) ∧
       contact_history (tracker w') !! q =
         Some (push mh (snapshot (tracker w) q) e')).
Proof.
  intros Hdec ps mh old_pos w1 w'.
  assert (Hrun : w' = if pos_ne old_pos (x, y)
                      then (check_contacts pid x y w1).1 else w1).
  { unfold w', handle_position_update, try_except.
    rewrite (handle_position_update_try_run body pid (x, y) w Hdec). simpl.
    fold ps old_pos w1. by destruct (pos_ne old_pos (x, y)). }
  assert (Hpos : positions (tracker w') = dict_set pid (x, y) ps).
  { rewrite Hrun. destruct (pos_ne old_pos (x, y)); [|done].
    by destruct (check_contacts_frame pid x y w1) as [-> _]. }
  split_and!.
  - done.
  - rewrite Hpos. apply dict_get_set_eq.
  - intros Hne. by rewrite Hrun, Hne.
  - intros Hne. by rewrite Hrun, Hne.
  - intros p Hold Hp. rewrite Hrun. unfold pos_ne. rewrite Hold, Hp. done.
  - intros Hnone Hok Hmh q p Hq Hp.
    assert (q ≠ pid) as Hne by (intros ->; unfold old_pos in Hnone; congruence).
    rewrite Hrun. unfold pos_ne. rewrite Hnone.
    destruct (check_contacts_peer w1 pid x y q p)
      as (evs & e' & H); try done.
    + by apply dict_set_ok.
    + unfold w1. simpl. by rewrite dict_get_set_ne.
    + by exists evs, e'.
Qed.

Lemma published_position_decodes a pos speed ts :
  decodes_to (published_position a pos speed ts) (KStr a) (JNum pos.1, JNum pos.2).
Proof. eexists _, _, _. split_and!; reflexivity. Qed.

Lemma position_update_scans_iff_moved_witness :
  let w := test_world 100 tick_clock 0 in
  let w' := handle_position_update (published_position "person4" (1, 1) 1 0) w in
  dict_get (KStr "person4") (positions (tracker w')) = Some (JNum 1, JNum 1) ∧
  w' = (check_contacts (KStr "person4") (JNum 1) (JNum 1)
          (with_tracker w
             (with_positions (tracker w)
                (dict_set (KStr "person4") (JNum 1, JNum 1) (positions (tracker w)))))).1.
Proof.
  intros w w'.
  destruct (position_update_scans_iff_moved
              (published_position "person4" (1, 1) 1 0)
              (KStr "person4") (JNum 1) (JNum 1) w) as (_ & Hget & Hscan & _).
  - apply (published_position_decodes "person4" (1, 1)).
  - split; [exact Hget|]. apply Hscan. reflexivity.
Defined.

(** ** The grid *)

(** C8, as the spec states it: a position update with coordinates
    outside a grid of size 10 is stored as it comes. *)
Lemma store_outside_grid_counterexample :
  ¬ Forall (λ it, in_grid 10 it.2)
      (positions
         (tracker
            (ingest [published_position "person1" (-1, 1000) 1 0]
               (mkWorld (mkTracker [] ∅ 100) tick_clock 0 [])))).
Proof.
  intros Hall. vm_compute positions in Hall.
  apply Forall_cons in Hall as [(x & y & Heq & Hx & Hy) _].
  simpl in Heq. injection Heq as <- <-. lia.
Qed.

Lemma move_randomly_in_grid bs pos d :
  1 ≤ bs →
  let p := move_randomly bs pos d in
  0 ≤ p.1 < bs ∧ 0 ≤ p.2 < bs.
Proof. intros Hbs. destruct d as [dx dy]. simpl. lia. Qed.

Lemma ingest_in_grid bs bodies w :
  Forall (λ it, in_grid bs it.2) (positions (tracker w)) →
  Forall (λ b, ∀ pid xy, decodes_to b pid xy → in_grid bs xy) bodies →
  Forall (λ it, in_grid bs it.2) (positions (tracker (ingest bodies w))).
Proof.
  intros Hw Hbodies. revert w Hw.
  induction Hbodies as [|b bodies Hb _ IH]; intros w Hw; [done|].
  simpl. apply IH.
  destruct (handle_position_update_positions b w)
    as [(pid & xy & Hdec & ->)| ->]; [|done].
  apply dict_set_Forall; [|done]. intros k'. simpl. by eapply Hb.
Qed.

(** C8, amended. The tracker stores the coordinates of every update as
    they are received, without comparing them to the board: the store
    stays inside the grid as long as every update that decodes carries
    coordinates inside it.  The updates of the repository's own
    publisher do: whatever the current position and the direction
    drawn, [move_randomly] yields integers in [0, board_size), so a
    store inside the grid stays inside it under any sequence of
    published moves. *)
Theorem store_in_grid_for_updates_in_grid bs :
  1 ≤ bs →
  (∀ pos d,
     let p := move_randomly bs pos d in 0 ≤ p.1 < bs ∧ 0 ≤ p.2 < bs) ∧
  (∀ bodies w,
     Forall (λ it, in_grid bs it.2) (positions (tracker w)) →
     Forall (λ b, ∀ pid xy, decodes_to b pid xy → in_grid bs xy) bodies →
     Forall (λ it, in_grid bs it.2) (positions (tracker (ingest bodies w)))) ∧
  (∀ (moves : list (string * (Z * Z) * (Z * Z) * Q * Q)) w,
     Forall (λ it, in_grid bs it.2) (positions (tracker w)) →
     let bodies :=
       map (λ '(a, pos, d, speed, ts),
              published_position a (move_randomly bs pos d) speed ts) moves in
     Forall (λ it, in_grid bs it.2) (positions (tracker (ingest bodies w)))).
Proof.
  intros Hbs. split_and!.
  - intros pos d. by apply move_randomly_in_grid.
  - intros bodies w. apply ingest_in_grid.
  - intros moves w Hw bodies. apply ingest_in_grid; [done|].
    unfold bodies. apply Forall_map, Forall_forall.
    intros [[[[a pos] d] speed] ts] _ pid xy Hdec.
    destruct Hdec as (data & pid_obj & pos_obj & Hload & Hpid & Hpos & Hxy & _).
    simpl in Hload. injection Hload as <-.
    simpl in Hpid, Hpos. injection Hpos as <-. simpl in Hxy.
    injection Hxy as <-.
    destruct (move_randomly_in_grid bs pos d Hbs) as [Hx Hy].
    by eexists _, _.
Qed.

Lemma store_in_grid_for_updates_in_grid_witness :
  Forall (λ it, in_grid 10 it.2)
    (positions
       (tracker
          (ingest
             [published_position "person1" (move_randomly 10 (9, 0) (1, -1)) 1 0]
             (test_world 100 tick_clock 0)))).
Proof.
  destruct (store_in_grid_for_updates_in_grid 10) as (_ & _ & Hmoves); [lia|].
  apply (Hmoves [("person1", (9, 0), (1, -1), 1%Q, 0%Q)] (test_world 100 tick_clock 0)).
  simpl. repeat constructor; eexists _, _; (split; [reflexivity|lia]).
Defined.

(** ** Reading a position update *)

Lemma decode_update_spec body pid xy :
  decode_update body = Ok (pid, xy) ↔ decodes_to body pid xy.
Proof.
  unfold decode_update, decodes_to. split.
  - destruct (json_loads body) as [data|]; [|done].
    destruct (getitem data "person_id") as [pid_obj|] eqn:Hpid; [|done].
    destruct (getitem data "position") as [pos_obj|] eqn:Hpos; [|done].
    destruct (unpack2 pos_obj) as [xy'|] eqn:Hxy; [|done].
    destruct (py_hash pid_obj) as [pid'|] eqn:Hhash; [|done].
    intros [= <- <-]. by exists data, pid_obj, pos_obj.
  - intros (data & pid_obj & pos_obj & -> & -> & -> & -> & ->). done.
Qed.

Lemma handle_query_tracker body w : tracker (handle_query body w) = tracker w.
Proof.
  destruct body as [|a]; [done|].
  unfold handle_query, try_except. by rewrite handle_query_try_run.
Qed.

Lemma handle_position_update_raise body e w :
  decode_update body = Raise e → handle_position_update body w = w.
Proof.
  intros Hdec. destruct (decodes_or_raises body w) as [(pid & xy & H)|[e' He]].
  - apply decode_update_spec in H. congruence.
  - unfold handle_position_update, try_except. by rewrite He.
Qed.

Lemma handle_position_update_store body w :
  positions (tracker (handle_position_update body w)) =
    match decode_update body with
    | Ok (pid, xy) => dict_set pid xy (positions (tracker w))
    | Raise _ => positions (tracker w)
    end.
Proof.
  destruct (decode_update body) as [[pid xy]|e] eqn:Hdec.
  - apply decode_update_spec in Hdec.
    unfold handle_position_update, try_except.
    rewrite (handle_position_update_try_run body pid xy w Hdec). simpl.
    destruct (pos_ne _ _); [|done].
    by destruct (check_contacts_frame pid xy.1 xy.2
                   (with_tracker w (with_positions (tracker w)
                      (dict_set pid xy (positions (tracker w)))))) as [-> _].
  - by rewrite (handle_position_update_raise body e w).
Qed.

(** C6, as the spec states it: a position value that is no coordinate
    pair but unpacks into two values, here the string of the two
    characters a and b, is not rejected.  The update is stored, so the
    state is no longer what it was, and when a second agent reports the
    same value the first agent's history receives a contact. *)
Lemma unchecked_position_is_stored_counterexample :
  let body a := Json (JObj [("person_id", JStr a); ("position", JStr "ab")]) in
  let w := test_world 100 tick_clock 0 in
  ¬ coordinate_pair (JStr "ab") ∧
  handle_position_update (body "person4") w ≠ w ∧
  dict_get (KStr "person4")
    (positions (tracker (handle_position_update (body "person4") w)))
    = Some (JStr "a", JStr "b") ∧
  person <$> snapshot
    (tracker (ingest [body "person4"; body "person5"] w)) (KStr "person4")
    = [KStr "person5"].
Proof.
  intros body w. split_and!.
  - intros (x & y & Heq). discriminate Heq.
  - intros Heq. apply (f_equal (λ w, length (positions (tracker w)))) in Heq.
    vm_compute in Heq. discriminate Heq.
  - by vm_compute.
  - by vm_compute.
Qed.

(** C6, amended. A position update that the handler cannot read (a body
    that is not JSON or not an object, an object without [person_id] or
    without [position], or a [position] that does not unpack into
    exactly two values) raises inside the handler's [try] block before
    anything is written: the exception is caught, and the position
    store, every history, the clock and the outbox are exactly as
    before the call.  A [position] that does unpack into two values is
    not checked any further: whatever the two values are, the update is
    accepted and they are stored as the agent's position. *)
Theorem malformed_update_is_dropped body w :
  (malformed body →
   (∃ e, handle_position_update_try body w = (w, Raise e)) ∧
   handle_position_update body w = w) ∧
  (∀ m pid_obj pid v xy,
     body = Json (JObj m) →
     obj_get "person_id" m = Some pid_obj → py_hash pid_obj = Ok pid →
     obj_get "position" m = Some v → unpack2 v = Ok xy →
     positions (tracker (handle_position_update body w)) =
       dict_set pid xy (positions (tracker w))).
Proof.
  split.
  - intros Hbad.
    assert (∃ e, handle_position_update_try body w = (w, Raise e)) as [e He].
    { unfold handle_position_update_try.
      destruct Hbad as [|data Hdata|m Hm|m Hm|m v e Hm He].
      - by eexists.
      - destruct data; try by eexists. by destruct (Hdata m).
      - run. rewrite Hm. by eexists.
      - run. destruct (obj_get "person_id" m); [|by eexists].
        run. rewrite Hm. by eexists.
      - run. destruct (obj_get "person_id" m); [|by eexists].
        run. rewrite Hm. run. rewrite He. by eexists. }
    split; [by exists e|]. unfold handle_position_update, try_except.
    by rewrite He.
  - intros m pid_obj pid v xy -> Hpid Hhash Hpos Hxy.
    rewrite handle_position_update_store.
    unfold decode_update, getitem. simpl. by rewrite Hpid, Hpos, Hxy, Hhash.
Qed.

Lemma malformed_update_is_dropped_witness :
  let w := test_world 100 tick_clock 0 in
  handle_position_update
    (Json (JObj [("person_id", JStr "person3"); ("position", JArr [JNum 1])])) w = w.
Proof.
  intros w.
  apply (malformed_update_is_dropped
           (Json (JObj [("person_id", JStr "person3");
                        ("position", JArr [JNum 1])])) w).
  by apply (malformed_position _ (JArr [JNum 1]) ValueError).
Defined.

Lemma consume_cons d ds w : consume (d :: ds) w = consume ds (dispatch d w).
Proof. reflexivity. Qed.

Lemma consume_app ds1 ds2 w : consume (ds1 ++ ds2) w = consume ds2 (consume ds1 w).
Proof. unfold consume. apply foldl_app. Qed.

Lemma last_report_cons pid b bodies init :
  last_report pid (b :: bodies) init =
    last_report pid bodies
      match decode_update b with
      | Ok (p, xy) => if decide (p = pid) then Some xy else init
      | Raise _ => init
      end.
Proof. reflexivity. Qed.

Lemma consume_last_report pid ds w :
  dict_get pid (positions (tracker (consume ds w))) =
    last_report pid (position_bodies ds) (dict_get pid (positions (tracker w))).
Proof.
  revert w. induction ds as [|d ds IH]; intros w; [done|].
  rewrite consume_cons, IH. destruct d as [b|q].
  - change (position_bodies (PositionMsg b :: ds))
      with (b :: position_bodies ds).
    rewrite last_report_cons. f_equal. simpl.
    rewrite handle_position_update_store.
    destruct (decode_update b) as [[p xy]|e]; [|done].
    destruct (decide (p = pid)) as [->|Hne].
    + apply dict_get_set_eq.
    + by apply dict_get_set_ne.
  - change (position_bodies (QueryMsg q :: ds)) with (position_bodies ds).
    simpl. by rewrite handle_query_tracker.
Qed.

(** X1. Whatever is delivered, queries included, the store maps an agent
    to the position of the last decodable update about it; an agent
    about which no update arrived keeps the position it had, or stays
    unknown. *)
Theorem store_holds_last_report pid ds w :
  dict_get pid (positions (tracker (consume ds w))) =
    last_report pid (position_bodies ds) (dict_get pid (positions (tracker w))) ∧
  (Forall (λ b, reports pid b = false) (position_bodies ds) →
   dict_get pid (positions (tracker (consume ds w))) =
     dict_get pid (positions (tracker w))).
Proof.
  split; [apply consume_last_report|].
  rewrite consume_last_report. generalize (dict_get pid (positions (tracker w))).
  induction (position_bodies ds) as [|b bodies IH]; intros init Hall; [done|].
  apply Forall_cons in Hall as [Hb Hall]. rewrite last_report_cons.
  unfold reports in Hb. destruct (decode_update b) as [[p xy]|e]; [|by apply IH].
  apply bool_decide_eq_false in Hb. rewrite decide_False by done. by apply IH.
Qed.

Lemma store_holds_last_report_witness :
  dict_get (KStr "person3")
    (positions
       (tracker
          (consume
             [PositionMsg (published_position "person1" (2, 2) 1 0);
              QueryMsg (Text "person3")]
             (test_world 100 tick_clock 0))))
  = Some (JNum 2, JNum 2).
Proof.
  apply (store_holds_last_report (KStr "person3")
           [PositionMsg (published_position "person1" (2, 2) 1 0);
            QueryMsg (Text "person3")]
           (test_world 100 tick_clock 0)).
  repeat constructor.
Defined.

(** X2. A position update is dropped, the world staying as it was,
    whenever reading it raises, whatever the exception: beyond the
    malformed shapes this covers a [person_id] that cannot be hashed (a
    list or an object), which raises [TypeError] at the lookup in the
    store. *)
Theorem unreadable_update_is_dropped body e w :
  decode_update body = Raise e →
  handle_position_update_try body w = (w, Raise e) ∧
  handle_position_update body w = w.
Proof.
  intros Hdec.
  assert (Htry : handle_position_update_try body w = (w, Raise e)).
  { unfold handle_position_update_try. unfold decode_update in Hdec.
    destruct (json_loads body) as [data|e0]; [|by simplify_eq].
    run. destruct (getitem data "person_id") as [pid_obj|e1]; [|by simplify_eq].
    run. destruct (getitem data "position") as [pos_obj|e2]; [|by simplify_eq].
    run. destruct (unpack2 pos_obj) as [xy|e3]; [|by simplify_eq].
    run. destruct (py_hash pid_obj) as [pid|e4]; [done|by simplify_eq]. }
  split; [done|]. unfold handle_position_update, try_except. by rewrite Htry.
Qed.

Lemma unreadable_update_is_dropped_witness :
  let w := test_world 100 tick_clock 0 in
  handle_position_update
    (Json (JObj [("person_id", JArr [JStr "person1"]);
                 ("position", JArr [JNum 2; JNum 2])])) w = w.
Proof.
  intros w.
  by apply (unreadable_update_is_dropped _ TypeError w).
Defined.

Lemma handle_position_update_decoded body pid xy w :
  decode_update body = Ok (pid, xy) →
  handle_position_update body w =
    let w1 :=
      with_tracker w
        (with_positions (tracker w) (dict_set pid xy (positions (tracker w)))) in
    if pos_ne (dict_get pid (positions (tracker w))) xy
    then (check_contacts pid xy.1 xy.2 w1).1
    else w1.
Proof.
  intros Hdec%decode_update_spec. unfold handle_position_update, try_except.
  rewrite (handle_position_update_try_run body pid xy w Hdec). simpl.
  by destruct (pos_ne _ _).
Qed.

Lemma handle_position_update_same_decode b b' w :
  decode_update b = decode_update b' →
  handle_position_update b w = handle_position_update b' w.
Proof.
  intros Heq. destruct (decode_update b) as [[pid xy]|e] eqn:Hb.
  - rewrite (handle_position_update_decoded b pid xy w Hb).
    by rewrite (handle_position_update_decoded b' pid xy w).
  - rewrite (handle_position_update_raise b e w Hb).
    by rewrite (handle_position_update_raise b' e w).
Qed.

(** X3. Of a position update only the fields [person_id] and [position]
    count: two messages that agree on them are handled alike, so the
    publisher's [speed] and [timestamp], or any other field, never reach
    the store or a history. *)
Theorem only_person_id_and_position_count m m' w :
  obj_get "person_id" m = obj_get "person_id" m' →
  obj_get "position" m = obj_get "position" m' →
  handle_position_update (Json (JObj m)) w =
    handle_position_update (Json (JObj m')) w.
Proof.
  intros Hpid Hpos. apply handle_position_update_same_decode.
  unfold decode_update, getitem. simpl. by rewrite Hpid, Hpos.
Qed.

Lemma only_person_id_and_position_count_witness :
  let w := test_world 100 tick_clock 0 in
  handle_position_update (published_position "person3" (1, 1) 1 7) w =
    handle_position_update (published_position "person3" (1, 1) 2 9) w.
Proof.
  intros w. apply only_person_id_and_position_count; reflexivity.
Defined.

Lemma dict_set_same {V} k (v : V) d : dict_get k d = Some v → dict_set k v d = d.
Proof.
  induction d as [|[k' v'] d IH]; simpl; [done|].
  destruct (decide (k' = k)) as [->|Hne].
  - by intros [= ->].
  - intros Hget. by rewrite IH.
Qed.

(** X4. Delivering the same position update twice in a row is the same
    as delivering it once, provided its position compares equal to
    itself (as integer coordinates do): the second delivery finds the
    position unchanged, skips the scan and rewrites the same entry. *)
Theorem redelivery_is_harmless body pid xy w :
  decode_update body = Ok (pid, xy) →
  pos_eqb xy xy = true →
  handle_position_update body (handle_position_update body w) =
    handle_position_update body w.
Proof.
  intros Hdec Hrefl.
  set (w' := handle_position_update body w).
  assert (Hget : dict_get pid (positions (tracker w')) = Some xy).
  { unfold w'. rewrite handle_position_update_store, Hdec.
    apply dict_get_set_eq. }
  rewrite (handle_position_update_decoded body pid xy w' Hdec). simpl.
  rewrite Hget. simpl. rewrite Hrefl. simpl.
  rewrite (dict_set_same _ _ _ Hget). by destruct w' as [[] ? ? ?].
Qed.

Lemma redelivery_is_harmless_witness :
  let w := test_world 100 tick_clock 0 in
  let b := published_position "person3" (1, 1) 1 7 in
  handle_position_update b (handle_position_update b w) =
    handle_position_update b w.
Proof.
  intros w b.
  by apply (redelivery_is_harmless b (KStr "person3") (JNum 1, JNum 1) w).
Defined.

(** ** What a run keeps *)

Lemma handle_position_update_frame body w :
  max_history (tracker (handle_position_update body w)) = max_history (tracker w) ∧
  now (handle_position_update body w) = now w ∧
  outbox (handle_position_update body w) = outbox w.
Proof.
  destruct (decode_update body) as [[pid xy]|e] eqn:Hdec.
  - rewrite (handle_position_update_decoded body pid xy w Hdec). simpl.
    destruct (pos_ne _ _); [|done].
    by destruct (check_contacts_frame pid xy.1 xy.2
                   (with_tracker w (with_positions (tracker w)
                      (dict_set pid xy (positions (tracker w))))))
      as (_ & -> & -> & ->).
  - by rewrite (handle_position_update_raise body e w Hdec).
Qed.

Lemma dispatch_frame d w :
  max_history (tracker (dispatch d w)) = max_history (tracker w) ∧
  now (dispatch d w) = now w.
Proof.
  destruct d as [b|q]; simpl.
  - by destruct (handle_position_update_frame b w) as (-> & -> & _).
  - rewrite handle_query_tracker. split; [done|].
    destruct q as [|a]; [done|].
    unfold handle_query, try_except. by rewrite handle_query_try_run.
Qed.

Lemma consume_frame ds w :
  max_history (tracker (consume ds w)) = max_history (tracker w) ∧
  now (consume ds w) = now w.
Proof.
  revert w. induction ds as [|d ds IH]; intros w; [done|].
  rewrite consume_cons. destruct (IH (dispatch d w)) as [-> ->].
  apply dispatch_frame.
Qed.

(** X5. The outbox only grows, and by exactly one response per query
    whose body decodes, in the order of the queries and each carrying
    the id that was asked for; position updates and undecodable queries
    publish nothing. *)
Theorem one_response_per_query ds w :
  ∃ rs,
    outbox (consume ds w) = outbox w ++ rs ∧
    resp_person_id <$> rs = queried_ids ds.
Proof.
  revert w. induction ds as [|d ds IH]; intros w.
  - exists []. by rewrite app_nil_r.
  - rewrite consume_cons. destruct (IH (dispatch d w)) as (rs & -> & Hids).
    destruct d as [b|[|a]]; cbn [dispatch].
    + exists rs. by destruct (handle_position_update_frame b w) as (_ & _ & ->).
    + by exists rs.
    + unfold handle_query, try_except. rewrite handle_query_try_run.
      cbn [fst outbox].
      eexists (_ :: rs). rewrite <- app_assoc. split; [done|].
      change (queried_ids (QueryMsg (Text a) :: ds)) with (a :: queried_ids ds).
      by rewrite fmap_cons, Hids.
Qed.

(** X6. The tracker never forgets an agent and never reorders the
    store: after any deliveries the keys of the store are the keys it
    had, in the same order, followed by the agents first heard of
    since, and they are still pairwise distinct. *)
Theorem store_only_grows ds w :
  dict_ok (positions (tracker w)) →
  dict_ok (positions (tracker (consume ds w))) ∧
  ∃ new,
    (positions (tracker (consume ds w))).*1 = (positions (tracker w)).*1 ++ new.
Proof.
  revert w. induction ds as [|d ds IH]; intros w Hok.
  - split; [done|]. exists []. by rewrite app_nil_r.
  - rewrite consume_cons.
    assert (dict_ok (positions (tracker (dispatch d w))) ∧
            ∃ new, (positions (tracker (dispatch d w))).*1
                   = (positions (tracker w)).*1 ++ new) as [Hok' [new1 Hnew1]].
    { destruct d as [b|q]; simpl.
      - rewrite handle_position_update_store.
        destruct (decode_update b) as [[pid xy]|e].
        + split; [by apply dict_set_ok|]. rewrite dict_set_keys.
          destruct (bool_decide _); [exists []; by rewrite app_nil_r|by eexists].
        + split; [done|]. exists []. by rewrite app_nil_r.
      - rewrite handle_query_tracker. split; [done|].
        exists []. by rewrite app_nil_r. }
    destruct (IH _ Hok') as [Hok'' [new2 Hnew2]]. split; [done|].
    exists (new1 ++ new2). by rewrite Hnew2, Hnew1, app_assoc.
Qed.

Lemma store_only_grows_witness :
  ∃ new,
    (positions
       (tracker
          (consume
             [PositionMsg (published_position "person4" (1, 1) 1 0);
              QueryMsg (Text "person1");
              PositionMsg (published_position "person1" (0, 0) 1 0)]
             (test_world 100 tick_clock 0)))).*1
    = [KStr "person1"; KStr "person2"; KStr "person3"] ++ new.
Proof.
  apply (store_only_grows _ (test_world 100 tick_clock 0)).
  apply test_tracker_ok.
Defined.

(** ** Invariants of the histories *)

Lemma push_length mh h e :
  1 ≤ mh → Z.of_nat (length h) ≤ mh → Z.of_nat (length (push mh h e)) ≤ mh.
Proof.
  intros Hmh Hlen. unfold push.
  destruct (Z.geb_spec (Z.of_nat (length h)) mh) as [Hge|Hlt];
    rewrite length_app; destruct h; simpl in *; lia.
Qed.

Lemma push_nonempty mh h e : push mh h e ≠ [].
Proof. unfold push. intros Heq. by apply app_eq_nil in Heq as [_ ?]. Qed.

Lemma elem_of_push mh h e x : x ∈ push mh h e → x ∈ h ∨ x = e.
Proof.
  unfold push. rewrite elem_of_app, list_elem_of_singleton.
  intros [Hin| ->]; [left|by right].
  destruct (_ >=? _); [|done]. destruct h; [done|]. by right.
Qed.

Lemma foldl_push_length mh h evs :
  1 ≤ mh → Z.of_nat (length h) ≤ mh →
  Z.of_nat (length (foldl (push mh) h evs)) ≤ mh.
Proof.
  intros Hmh. revert h. induction evs as [|e evs IH]; intros h Hlen; [done|].
  simpl. apply IH. by apply push_length.
Qed.

Lemma foldl_push_nonempty mh h evs :
  evs ≠ [] → foldl (push mh) h evs ≠ [].
Proof.
  revert h. induction evs as [|e evs IH]; intros h Hne; [done|].
  simpl. destruct evs as [|e' evs]; [apply push_nonempty|]. by apply IH.
Qed.

Lemma elem_of_foldl_push mh h evs x :
  x ∈ foldl (push mh) h evs → x ∈ h ∨ x ∈ evs.
Proof.
  revert h. induction evs as [|e evs IH]; intros h; simpl; [by left|].
  intros [[Hin| ->]%elem_of_push|Hin]%IH.
  - by left.
  - right. by left.
  - right. by right.
Qed.

Lemma snapshot_ok t k :
  0 ≤ max_history t → histories_ok t →
  Z.of_nat (length (snapshot t k)) ≤ max_history t ∧
  ∀ e, e ∈ snapshot t k → person e ≠ k ∧ known t (person e).
Proof.
  intros Hmh Hok. unfold snapshot.
  destruct (contact_history t !! k) as [h|] eqn:Hk; simpl.
  - by destruct (Hok k h Hk) as (_ & _ & ? & ?).
  - split; [lia|]. by intros e ?%elem_of_nil.
Qed.

Lemma check_contacts_ok w pid x y :
  1 ≤ max_history (tracker w) →
  tracker_ok (tracker w) →
  known (tracker w) pid →
  tracker_ok (tracker (check_contacts pid x y w).1).
Proof.
  intros Hmh [Hdict Hhist] Hpid.
  destruct (check_contacts_spec w pid x y Hdict Hmh)
    as (w' & Hrun & Hpos & Hmh' & _ & _ & _ & Hself & Hnil & Hpeer & Hother).
  rewrite Hrun. simpl. set (qs := peers pid (x, y) (positions (tracker w))) in *.
  assert (Hqs : ∀ q, q ∈ qs → q ≠ pid ∧ known (tracker w) q).
  { intros q [Hne (p & Hin & _)]%elem_of_peers. split; [done|].
    apply list_elem_of_fmap. by exists (q, p). }
  split; [unfold dict_ok; by rewrite Hpos|].
  intros k h Hk. unfold known. rewrite Hpos, Hmh'.
  destruct (decide (k = pid)) as [->|Hne].
  - destruct (decide (qs = [])) as [Hempty|Hsome].
    { rewrite (Hnil Hempty) in Hk. by apply Hhist. }
    assert (h = snapshot (tracker w') pid) as -> by (unfold snapshot; by rewrite Hk).
    rewrite Hself.
    destruct (snapshot_ok (tracker w) pid) as [Hlen Hold]; [lia|done|].
    split_and!; [done| | |].
    + apply foldl_push_nonempty. intros Hst. apply Hsome.
      by rewrite <- (stamp_persons (now w) (ticks w) (x, y) qs), Hst.
    + by apply foldl_push_length.
    + intros e [Hin|Hin]%elem_of_foldl_push; [by apply Hold|].
      apply Hqs. rewrite <- (stamp_persons (now w) (ticks w) (x, y) qs).
      by apply list_elem_of_fmap_2.
  - destruct (decide (k ∈ qs)) as [Hin|Hnotin].
    + destruct (list_elem_of_lookup_1 _ _ Hin) as [i Hi].
      rewrite (Hpeer i k Hi) in Hk. injection Hk as <-.
      destruct (snapshot_ok (tracker w) k) as [Hlen Hold]; [lia|done|].
      split_and!; [by apply Hqs|apply push_nonempty|by apply push_length|].
      intros e [He| ->]%elem_of_push; [by apply Hold|]. simpl. done.
    + rewrite (Hother k Hne Hnotin) in Hk. by apply Hhist.
Qed.

Lemma known_dict_set t pid xy k :
  known t k ∨ k = pid →
  known (with_positions t (dict_set pid xy (positions t))) k.
Proof.
  unfold known. simpl. rewrite dict_set_keys.
  destruct (bool_decide (pid ∈ (positions t).*1)) eqn:Hin.
  - apply bool_decide_eq_true in Hin. by intros [?| ->].
  - rewrite elem_of_app, list_elem_of_singleton. tauto.
Qed.

Lemma dispatch_ok d w :
  1 ≤ max_history (tracker w) →
  tracker_ok (tracker w) → tracker_ok (tracker (dispatch d w)).
Proof.
  intros Hmh [Hdict Hhist]. destruct d as [b|q]; cbn [dispatch].
  - destruct (decode_update b) as [[pid xy]|e] eqn:Hdec.
    + rewrite (handle_position_update_decoded b pid xy w Hdec).
      set (w1 := with_tracker w _).
      assert (tracker_ok (tracker w1)) as Hok1.
      { split; [by apply dict_set_ok|].
        intros k h Hk. destruct (Hhist k h Hk) as (Hkn & Hne & Hlen & Hev).
        split_and!; [apply known_dict_set; by left|done|done|].
        intros e He. destruct (Hev e He). split; [done|].
        apply known_dict_set. by left. }
      cbv zeta. destruct (pos_ne _ _); [|done].
      apply check_contacts_ok; [done|done|]. apply known_dict_set. by right.
    + by rewrite (handle_position_update_raise b e w Hdec).
  - by rewrite handle_query_tracker.
Qed.

Lemma consume_ok ds w :
  1 ≤ max_history (tracker w) →
  tracker_ok (tracker w) → tracker_ok (tracker (consume ds w)).
Proof.
  revert w. induction ds as [|d ds IH]; intros w Hmh Hok; [done|].
  rewrite consume_cons. apply IH; [|by apply dispatch_ok].
  by destruct (dispatch_frame d w) as [-> _].
Qed.

Lemma init_ok mh : tracker_ok (Tracker_init mh).
Proof. split; [constructor|]. intros k h Hk. done. Qed.

(** X7. In every state the tracker reaches from its initial state, with
    a bound of at least 1, the keys of the store are pairwise distinct
    and every entry of the history mapping holds at least one and at
    most [max_history] events, however the position updates and
    queries were interleaved. *)
Theorem reachable_histories_bounded mh clk ds :
  1 ≤ mh →
  let t := tracker (consume ds (init_world mh clk)) in
  max_history t = mh ∧
  dict_ok (positions t) ∧
  ∀ k h, contact_history t !! k = Some h →
         h ≠ [] ∧ Z.of_nat (length h) ≤ mh.
Proof.
  intros Hmh t.
  destruct (consume_frame ds (init_world mh clk)) as [Hmh' _].
  destruct (consume_ok ds (init_world mh clk)) as [Hdict Hhist];
    [done|apply init_ok|].
  fold t in Hmh', Hdict, Hhist. simpl in Hmh'. split_and!; [done|done|].
  intros k h Hk. destruct (Hhist k h Hk) as (_ & ? & ? & _).
  by rewrite <- Hmh'.
Qed.

(** X8. In every reachable state no history names its own owner, and
    every owner of a history as well as every agent named in one has a
    position in the store: contacts are only ever recorded between two
    different agents that have reported a position. *)
Theorem reachable_contacts_between_known_agents mh clk ds :
  1 ≤ mh →
  let t := tracker (consume ds (init_world mh clk)) in
  ∀ k h e, contact_history t !! k = Some h → e ∈ h →
           person e ≠ k ∧
           is_Some (dict_get k (positions t)) ∧
           is_Some (dict_get (person e) (positions t)).
Proof.
  intros Hmh t k h e Hk He.
  destruct (consume_ok ds (init_world mh clk)) as [Hdict Hhist];
    [done|apply init_ok|].
  fold t in Hdict, Hhist.
  destruct (Hhist k h Hk) as (Hkn & _ & _ & Hev). destruct (Hev e He) as [Hne Hpe].
  assert (Hget : ∀ q, known t q → is_Some (dict_get q (positions t))).
  { intros q [[q' p] [-> Hin]]%list_elem_of_fmap. exists p.
    by apply dict_get_elem_of. }
  split_and!; [done|by apply Hget|by apply Hget].
Qed.

Lemma reachable_histories_bounded_witness :
  let t :=
    tracker
      (consume
         [PositionMsg (published_position "a" (1, 1) 1 0);
          PositionMsg (published_position "b" (1, 1) 1 0);
          PositionMsg (published_position "c" (1, 1) 1 0);
          QueryMsg (Text "c");
          PositionMsg (published_position "d" (1, 1) 1 0)]
         (init_world 2 tick_clock)) in
  max_history t = 2 ∧
  dict_ok (positions t) ∧
  Z.of_nat (length (snapshot t (KStr "a"))) ≤ 2.
Proof.
  intros t.
  destruct (reachable_histories_bounded 2 tick_clock
              [PositionMsg (published_position "a" (1, 1) 1 0);
               PositionMsg (published_position "b" (1, 1) 1 0);
               PositionMsg (published_position "c" (1, 1) 1 0);
               QueryMsg (Text "c");
               PositionMsg (published_position "d" (1, 1) 1 0)])
    as (Hmh & Hdict & Hhist); [lia|].
  split_and!; [exact Hmh|exact Hdict|].
  apply (Hhist (KStr "a") (snapshot t (KStr "a"))). by vm_compute.
Defined.

Lemma reachable_contacts_between_known_agents_witness :
  let t :=
    tracker
      (consume
         [PositionMsg (published_position "a" (1, 1) 1 0);
          PositionMsg (published_position "b" (1, 1) 1 0)]
         (init_world 2 tick_clock)) in
  let e := mkContact (KStr "b") (JNum 1, JNum 1) (tick_clock 2) in
  person e ≠ KStr "a" ∧
  is_Some (dict_get (KStr "a") (positions t)) ∧
  is_Some (dict_get (person e) (positions t)).
Proof.
  intros t e.
  apply (reachable_contacts_between_known_agents 2 tick_clock
           [PositionMsg (published_position "a" (1, 1) 1 0);
            PositionMsg (published_position "b" (1, 1) 1 0)]
           ltac:(lia) (KStr "a") [e] e).
  - by vm_compute.
  - apply list_elem_of_singleton. reflexivity.
Defined.

(** ** A bound that leaves no room *)

Lemma update_contact_history_no_room k c w :
  max_history (tracker w) ≤ 0 →
  snapshot (tracker w) k = [] →
  update_contact_history k c w =
    (with_tracker w
       (with_history (tracker w) (<[k := []]> (contact_history (tracker w)))),
     Raise IndexError).
Proof.
  intros Hmh Hsnap. destruct w as [[ps hm mh] clk n out]. simpl in *.
  unfold snapshot in Hsnap. simpl in Hsnap.
  unfold update_contact_history, history_popleft, history_append.
  assert (Hge : (Z.of_nat 0 >=? mh) = true).
  { rewrite Z.geb_leb. apply Z.leb_le. simpl. lia. }
  run. destruct (hm !! k) as [h|] eqn:Hk; simpl in Hsnap; subst; run.
  - rewrite Hge. run. rewrite Hk. run.
    unfold with_tracker, with_history. simpl. by rewrite insert_id.
  - rewrite Hge. run. rewrite lookup_insert_eq. run. done.
Qed.

Lemma check_contacts_no_room pid x y w :
  max_history (tracker w) ≤ 0 →
  snapshot (tracker w) pid = [] →
  let w' := (check_contacts pid x y w).1 in
  positions (tracker w') = positions (tracker w) ∧
  (contact_history (tracker w') = contact_history (tracker w) ∨
   contact_history (tracker w') = <[pid := []]> (contact_history (tracker w))).
Proof.
  intros Hmh Hsnap. unfold check_contacts. run. rewrite scan_positions_run.
  simpl. destruct (stamp _ _ _ _) as [|c cs]; simpl; [by split; [|left]|].
  rewrite mbind_run, update_contact_history_no_room by done. simpl.
  split; [done|by right].
Qed.

Lemma dispatch_no_room d w :
  max_history (tracker w) ≤ 0 →
  (∀ k, snapshot (tracker w) k = []) →
  ∀ k, snapshot (tracker (dispatch d w)) k = [].
Proof.
  intros Hmh Hempty k. destruct d as [b|q]; cbn [dispatch].
  - destruct (decode_update b) as [[pid xy]|e] eqn:Hdec.
    + rewrite (handle_position_update_decoded b pid xy w Hdec).
      set (w1 := with_tracker w _). cbv zeta.
      destruct (pos_ne _ _); [|apply Hempty].
      destruct (check_contacts_no_room pid xy.1 xy.2 w1) as [_ [Heq|Heq]];
        [done|apply Hempty|..]; unfold snapshot; rewrite Heq.
      * apply Hempty.
      * destruct (decide (pid = k)) as [->|Hne].
        -- by rewrite lookup_insert_eq.
        -- rewrite lookup_insert_ne by done. apply Hempty.
    + rewrite (handle_position_update_raise b e w Hdec). apply Hempty.
  - rewrite handle_query_tracker. apply Hempty.
Qed.

(** X9. With a bound of zero or less nothing can be recorded: appending
    to an empty or absent history raises [IndexError] from [popleft],
    leaving an empty entry behind, and so a tracker started with such a
    bound has only empty histories after any deliveries, although it
    keeps following positions. *)
Theorem no_room_no_contacts mh :
  mh ≤ 0 →
  (∀ k c w,
     max_history (tracker w) = mh → snapshot (tracker w) k = [] →
     ∃ w', update_contact_history k c w = (w', Raise IndexError) ∧
           contact_history (tracker w') !! k = Some []) ∧
  (∀ clk ds k, snapshot (tracker (consume ds (init_world mh clk))) k = []).
Proof.
  intros Hmh. split.
  - intros k c w Hw Hsnap. eexists. split.
    + apply update_contact_history_no_room; [lia|done].
    + simpl. by rewrite lookup_insert_eq.
  - intros clk ds.
    assert (∀ w, max_history (tracker w) = mh →
                 (∀ k, snapshot (tracker w) k = []) →
                 ∀ k, snapshot (tracker (consume ds w)) k = []) as Hrun.
    { induction ds as [|d ds IH]; intros w Hw Hempty; [done|].
      rewrite consume_cons. apply IH.
      - by destruct (dispatch_frame d w) as [-> _].
      - apply dispatch_no_room; [lia|done]. }
    by apply Hrun.
Qed.

Lemma no_room_no_contacts_witness :
  snapshot
    (tracker
       (consume
          [PositionMsg (published_position "a" (1, 1) 1 0);
           PositionMsg (published_position "b" (1, 1) 1 0)]
          (init_world 0 tick_clock)))
    (KStr "a") = [].
Proof.
  destruct (no_room_no_contacts 0) as [_ Hrun]; [lia|]. apply Hrun.
Defined.

(** ** A history above the bound *)

Lemma push_full mh h e :
  1 ≤ mh → mh ≤ Z.of_nat (length h) →
  push mh h e = lastn (length h) (h ++ [e]).
Proof.
  intros Hmh Hlen. unfold push.
  destruct (Z.geb_spec (Z.of_nat (length h)) mh) as [_|Hlt]; [|lia].
  destruct h as [|e0 h]; [simpl in Hlen; lia|].
  rewrite lastn_snoc by (simpl; lia). unfold lastn. simpl.
  by replace (S (length h) - (length h - 0))%nat with 1%nat by lia.
Qed.

(** X10. The bound is enforced by one [popleft] per append and nothing
    else: a history that is longer than [max_history] (one installed
    directly, as the unit tests install positions) is never trimmed
    back; every append drops its oldest event and the length stays what
    it was. *)
Theorem overlong_history_keeps_length k es w :
  1 ≤ max_history (tracker w) →
  max_history (tracker w) ≤ Z.of_nat (length (snapshot (tracker w) k)) →
  let h0 := snapshot (tracker w) k in
  ∃ w',
    appends k es w = (w', Ok ()) ∧
    snapshot (tracker w') k = lastn (length h0) (h0 ++ es) ∧
    length (snapshot (tracker w') k) = length h0.
Proof.
  revert w. induction es as [|e es IH]; intros w Hmh Hlen h0.
  - exists w. rewrite app_nil_r, lastn_le by done. done.
  - simpl appends. rewrite mbind_run, update_contact_history_run by done.
    set (w1 := with_tracker w _).
    assert (Hsnap : snapshot (tracker w1) k = lastn (length h0) (h0 ++ [e])).
    { unfold w1, snapshot at 1. simpl. rewrite lookup_insert_eq. simpl.
      by apply push_full. }
    assert (Hlen1 : length (snapshot (tracker w1) k) = length h0).
    { rewrite Hsnap, lastn_length, length_app. simpl. lia. }
    destruct (IH w1) as (w' & Hrun & Hk & Hl).
    + done.
    + rewrite Hlen1. done.
    + exists w'. split_and!; [done| |congruence].
      rewrite Hk, Hlen1, Hsnap, lastn_lastn_app. by rewrite <- app_assoc.
Qed.

Lemma overlong_history_keeps_length_witness :
  let e (i : Z) := mkContact (KStr "test2") (JNum 1, JNum 1) (inject_Z i) in
  let w :=
    mkWorld (mkTracker [] {[KStr "test1" := [e 1; e 2; e 3]]} 2) tick_clock 0 [] in
  ∃ w',
    appends (KStr "test1") [e 4; e 5] w = (w', Ok ()) ∧
    snapshot (tracker w') (KStr "test1") = [e 3; e 4; e 5].
Proof.
  intros e w.
  destruct (overlong_history_keeps_length (KStr "test1") [e 4; e 5] w)
    as (w' & Hrun & Hk & _).
  - unfold w. simpl. lia.
  - unfold w. vm_compute. discriminate.
  - exists w'. split; [done|]. rewrite Hk. reflexivity.
Defined.

(** ** The scan at the level of the handlers *)

(** X11. No co-location, no contact: when a decodable update puts the
    agent on a cell where no other agent stands, the whole history
    mapping is left as it was (no entry is created either) and the clock
    is not read; only the store changes. *)
Theorem update_to_free_cell_records_nothing body pid xy w :
  decode_update body = Ok (pid, xy) →
  (∀ q p, (q, p) ∈ positions (tracker w) → q ≠ pid → pos_eqb p xy = false) →
  let w' := handle_position_update body w in
  contact_history (tracker w') = contact_history (tracker w) ∧
  ticks w' = ticks w ∧
  positions (tracker w') = dict_set pid xy (positions (tracker w)).
Proof.
  intros Hdec Hfree w'. unfold w'.
  rewrite (handle_position_update_decoded body pid xy w Hdec). cbv zeta.
  set (w1 := with_tracker w _). destruct (pos_ne _ _); [|done].
  assert (peers pid xy (positions (tracker w1)) = []) as Hnil.
  { apply elem_of_nil_inv. intros q [Hne (p & Hin & Hp)]%elem_of_peers.
    unfold w1 in Hin. simpl in Hin.
    assert ((q, p) ∈ positions (tracker w)) as Hold.
    { clear -Hin Hne. induction (positions (tracker w)) as [|[k v] d IH].
      - simpl in Hin. apply list_elem_of_singleton in Hin. by simplify_eq.
      - simpl in Hin. destruct (decide (k = pid)) as [->|Hk].
        + apply elem_of_cons in Hin as [?|Hin]; [by simplify_eq|by right].
        + apply elem_of_cons in Hin as [->|Hin]; [by left|right; by apply IH]. }
    rewrite (Hfree q p Hold Hne) in Hp. done. }
  unfold check_contacts. run. destruct xy as [x y]. simpl in *.
  rewrite scan_positions_run. simpl. rewrite Hnil. simpl.
  split_and!; [done|lia|done].
Qed.

Lemma update_to_free_cell_records_nothing_witness :
  let w := test_world 100 tick_clock 0 in
  contact_history
    (tracker (handle_position_update (published_position "person1" (5, 5) 1 0) w))
  = contact_history (tracker w).
Proof.
  intros w.
  apply (update_to_free_cell_records_nothing
           (published_position "person1" (5, 5) 1 0)
           (KStr "person1") (JNum 5, JNum 5) w).
  - reflexivity.
  - intros q p Hin Hne. unfold w in Hin. simpl in Hin.
    repeat (apply elem_of_cons in Hin as [Heq|Hin];
            [injection Heq as -> ->; try done|]).
    by apply elem_of_nil in Hin.
Defined.

(** X12. A query sees the contact just made: when an update moves agent
    [pid] onto the cell of agent [q] and [q] is queried next, the one
    response published carries [q]'s id and its last contact names
    [pid] at the new position. *)
Theorem query_after_contact_shows_it body pid xy (q : string) p w :
  dict_ok (positions (tracker w)) →
  1 ≤ max_history (tracker w) →
  decode_update body = Ok (pid, xy) →
  pos_ne (dict_get pid (positions (tracker w))) xy = true →
  KStr q ≠ pid →
  dict_get (KStr q) (positions (tracker w)) = Some p →
  pos_eqb p xy = true →
  ∃ r e,
    outbox (consume [PositionMsg body; QueryMsg (Text q)] w) = outbox w ++ [r] ∧
    resp_person_id r = q ∧
    last (resp_contacts r) = Some e ∧
    person e = pid ∧ position e = xy.
Proof.
  intros Hok Hmh Hdec Hmoved Hne Hq Hp.
  unfold consume. cbn [foldl dispatch].
  rewrite (handle_position_update_decoded body pid xy w Hdec). cbv zeta.
  rewrite Hmoved. set (w1 := with_tracker w _). destruct xy as [x y].
  destruct (check_contacts_peer w1 pid x y (KStr q) p)
    as (evs & e' & _ & _ & He' & Hpos & Hhist); try done.
  { by apply dict_set_ok. }
  { unfold w1. simpl. rewrite dict_get_set_ne by done. done. }
  destruct (check_contacts_frame pid x y w1) as (_ & _ & _ & Hout).
  cbn [fst snd] in *. set (w' := (check_contacts pid x y w1).1) in *.
  unfold handle_query, try_except. rewrite handle_query_try_run.
  cbn [fst outbox]. eexists _, e'. rewrite Hout.
  split_and!; [done|done| |done|done].
  cbn [resp_contacts]. unfold snapshot at 1. rewrite Hhist. simpl. unfold push.
  apply last_snoc.
Qed.

Lemma query_after_contact_shows_it_witness :
  ∃ r e,
    outbox
      (consume
         [PositionMsg (published_position "person3" (1, 1) 1 0);
          QueryMsg (Text "person2")]
         (test_world 100 tick_clock 0)) = [r] ∧
    last (resp_contacts r) = Some e ∧
    person e = KStr "person3".
Proof.
  destruct (query_after_contact_shows_it
              (published_position "person3" (1, 1) 1 0)
              (KStr "person3") (JNum 1, JNum 1) "person2" (JNum 1, JNum 1)
              (test_world 100 tick_clock 0))
    as (r & e & Hout & _ & Hlast & He & _).
  - apply test_tracker_ok.
  - simpl. lia.
  - reflexivity.
  - reflexivity.
  - discriminate.
  - reflexivity.
  - reflexivity.
  - exists r, e. split_and!; [exact Hout|exact Hlast|exact He].
Defined.

(** ** The simulator *)

(** X13. A move of the simulator is a king's move clamped to the board:
    from a cell of the grid, with any of the eight directions, the new
    position is again in the grid and at most one cell away on each
    axis, and the simulator stays where it was only on the border of
    the board. *)
Theorem move_randomly_one_cell bs x y d :
  0 ≤ x < bs → 0 ≤ y < bs → d ∈ directions →
  let p := move_randomly bs (x, y) d in
  0 ≤ p.1 < bs ∧ 0 ≤ p.2 < bs ∧
  Z.abs (p.1 - x) ≤ 1 ∧ Z.abs (p.2 - y) ≤ 1 ∧
  (p = (x, y) → x = 0 ∨ x = bs - 1 ∨ y = 0 ∨ y = bs - 1).
Proof.
  intros Hx Hy Hd. unfold directions in Hd.
  repeat (apply elem_of_cons in Hd as [->|Hd]);
    try (by apply elem_of_nil in Hd);
    simpl; (split_and!; [lia..|intros [= Hpx Hpy]; lia]).
Qed.

Lemma move_randomly_one_cell_witness :
  let p := move_randomly 10 (0, 9) (-1, 1) in
  0 ≤ p.1 < 10 ∧ 0 ≤ p.2 < 10 ∧
  Z.abs (p.1 - 0) ≤ 1 ∧ Z.abs (p.2 - 9) ≤ 1 ∧
  (p = (0, 9) → 0 = 0 ∨ 0 = 10 - 1 ∨ 9 = 0 ∨ 9 = 10 - 1).
Proof.
  apply (move_randomly_one_cell 10 0 9 (-1, 1)); [lia|lia|].
  unfold directions. set_solver.
Defined.

Lemma sim_run_id s draws : sim_person_id (sim_run s draws).1 = sim_person_id s.
Proof.
  revert s. induction draws as [|[d ts] draws IH]; intros s; [done|].
  simpl. destruct (sim_run _ draws) as [s2 msgs] eqn:Hrun. simpl.
  specialize (IH (mkSim (sim_person_id s) (sim_speed s) (sim_board_size s)
                    (move_randomly (sim_board_size s) (sim_position s) d))).
  by rewrite Hrun in IH.
Qed.






(** ** Histories are chronological *)

Lemma chron_mono clk t t' h : chron clk t h → (t ≤ t')%nat → chron clk t' h.
Proof.
  destruct 1 as [t|t0 t h e i Hh Hle Hlt He]; intros Ht.
  - constructor.
  - apply (chron_snoc clk t0 t' h e i); [done|done|lia|done].
Qed.

Lemma chron_tail clk t h : chron clk t h → chron clk t (tail h).
Proof.
  induction 1 as [t|t0 t h e i Hh IH Hle Hlt He]; [constructor|].
  destruct h as [|e0 h]; simpl; [constructor|].
  by apply (chron_snoc clk t0 t h e i).
Qed.

Lemma chron_push clk mh t t' h e i :
  chron clk t h → (t ≤ i)%nat → (i < t')%nat → time e = clk i →
  chron clk t' (push mh h e).
Proof.
  intros Hh Hle Hlt He. unfold push.
  apply (chron_snoc clk t t' _ e i); [|done..].
  destruct (_ >=? _); [by apply chron_tail|done].
Qed.

Lemma chron_foldl_stamp clk mh t xy qs h :
  chron clk t h →
  chron clk (t + 2 * length qs) (foldl (push mh) h (stamp clk t xy qs)).
Proof.
  revert t h. induction qs as [|q qs IH]; intros t h Hh.
  - simpl. eapply chron_mono; [done|lia].
  - simpl. replace (t + S (length qs + S (length qs + 0)))%nat
      with (S (S t) + 2 * length qs)%nat by lia.
    apply IH. by apply (chron_push clk mh t (S (S t)) h _ t); [|lia|lia|].
Qed.

Lemma chron_stamps clk t h e :
  chron clk t h → e ∈ h → ∃ n, (n < t)%nat ∧ time e = clk n.
Proof.
  induction 1 as [t|t0 t h e' i Hh IH Hle Hlt He]; [by intros ?%elem_of_nil|].
  intros [Hin| ->%list_elem_of_singleton]%elem_of_app.
  - destruct (IH Hin) as (n & Hn & Htime). exists n. split; [lia|done].
  - by exists i.
Qed.

Lemma chron_sorted clk t h :
  (∀ a b, (a ≤ b)%nat → (clk a <= clk b)%Q) →
  chron clk t h →
  ∀ i j ei ej, (i ≤ j)%nat → h !! i = Some ei → h !! j = Some ej →
               (time ei <= time ej)%Q.
Proof.
  intros Hclk. induction 1 as [t|t0 t h e n Hh IH Hle Hlt He]; [done|].
  intros i j ei ej Hij Hi Hj.
  destruct (decide (j < length h)%nat) as [Hjl|Hjl].
  - rewrite lookup_app_l in Hi by lia. rewrite lookup_app_l in Hj by lia.
    by apply (IH i j ei ej).
  - assert (j = length h) as ->.
    { apply lookup_lt_Some in Hj. rewrite length_app in Hj. simpl in Hj. lia. }
    rewrite lookup_app_r in Hj by lia.
    replace (length h - length h)%nat with 0%nat in Hj by lia.
    injection Hj as <-. rewrite He.
    destruct (decide (i < length h)%nat) as [Hil|Hil].
    + rewrite lookup_app_l in Hi by lia.
      destruct (chron_stamps clk t0 h ei Hh) as (m & Hm & ->).
      { by eapply list_elem_of_lookup_2. }
      apply Hclk. lia.
    + assert (i = length h) as -> by lia.
      rewrite lookup_app_r in Hi by lia.
      replace (length h - length h)%nat with 0%nat in Hi by lia.
      injection Hi as <-. rewrite He. apply Qle_refl.
Qed.

Lemma chron_snapshot w k :
  histories_chron w → chron (now w) (ticks w) (snapshot (tracker w) k).
Proof.
  intros Hw. unfold snapshot.
  destruct (contact_history (tracker w) !! k) as [h|] eqn:Hk; simpl.
  - by apply (Hw k h).
  - constructor.
Qed.

Lemma check_contacts_chron w pid x y :
  dict_ok (positions (tracker w)) →
  1 ≤ max_history (tracker w) →
  histories_chron w →
  histories_chron (check_contacts pid x y w).1.
Proof.
  intros Hdict Hmh Hw.
  destruct (check_contacts_spec w pid x y Hdict Hmh)
    as (w' & Hrun & _ & _ & Hnow & Hticks & _ & Hself & _ & Hpeer & Hother).
  rewrite Hrun. simpl. set (qs := peers pid (x, y) (positions (tracker w))) in *.
  intros k h Hk. rewrite Hnow, Hticks.
  destruct (decide (k = pid)) as [->|Hne].
  - assert (h = snapshot (tracker w') pid) as ->
      by (unfold snapshot; by rewrite Hk).
    rewrite Hself. eapply chron_mono.
    + apply chron_foldl_stamp. by apply chron_snapshot.
    + lia.
  - destruct (decide (k ∈ qs)) as [Hin|Hnotin].
    + destruct (list_elem_of_lookup_1 _ _ Hin) as [i Hi].
      pose proof (lookup_lt_Some _ _ _ Hi) as Hlt.
      rewrite (Hpeer i k Hi) in Hk. injection Hk as <-.
      apply (chron_push (now w) _ (ticks w) _ _ _
               (ticks w + 2 * length qs + i)%nat);
        [by apply chron_snapshot|lia|lia|done].
    + rewrite (Hother k Hne Hnotin) in Hk.
      eapply chron_mono; [by apply (Hw k h)|lia].
Qed.

Lemma dispatch_chron d w :
  1 ≤ max_history (tracker w) →
  dict_ok (positions (tracker w)) →
  histories_chron w → histories_chron (dispatch d w).
Proof.
  intros Hmh Hdict Hw. destruct d as [b|q]; cbn [dispatch].
  - destruct (decode_update b) as [[pid xy]|e] eqn:Hdec.
    + rewrite (handle_position_update_decoded b pid xy w Hdec). cbv zeta.
      set (w1 := with_tracker w _). destruct (pos_ne _ _); [|done].
      apply check_contacts_chron; [by apply dict_set_ok|done|done].
    + by rewrite (handle_position_update_raise b e w Hdec).
  - destruct q as [|a]; [done|].
    unfold handle_query, try_except. rewrite handle_query_try_run. simpl.
    intros k h Hk. simpl in *. eapply chron_mono; [by apply (Hw k h)|lia].
Qed.

Lemma consume_chron ds w :
  1 ≤ max_history (tracker w) →
  tracker_ok (tracker w) →
  histories_chron w → histories_chron (consume ds w).
Proof.
  revert w. induction ds as [|d ds IH]; intros w Hmh Hok Hw; [done|].
  rewrite consume_cons. apply IH.
  - by destruct (dispatch_frame d w) as [-> _].
  - by apply dispatch_ok.
  - apply dispatch_chron; [done|by destruct Hok|done].
Qed.

(** X15. Histories are chronological: in every state reached from the
    initial one, with a bound of at least 1, each recorded event carries
    a reading of the tracker's own clock taken earlier in the run, and
    on a clock that never goes back the timestamps of every history are
    in non-decreasing order from the oldest event to the newest. *)
Theorem reachable_histories_chronological mh clk ds :
  1 ≤ mh →
  let w := consume ds (init_world mh clk) in
  ∀ k h, contact_history (tracker w) !! k = Some h →
    (∀ e, e ∈ h → ∃ n, (n < ticks w)%nat ∧ time e = clk n) ∧
    ((∀ a b, (a ≤ b)%nat → (clk a <= clk b)%Q) →
     ∀ i j ei ej, (i ≤ j)%nat → h !! i = Some ei → h !! j = Some ej →
                  (time ei <= time ej)%Q).
Proof.
  intros Hmh w k h Hk.
  assert (Hnow : now w = clk).
  { unfold w. by destruct (consume_frame ds (init_world mh clk)) as [_ ->]. }
  assert (Hc : chron clk (ticks w) h).
  { rewrite <- Hnow.
    assert (histories_chron w) as Hw; [|by apply (Hw k h)].
    apply (consume_chron ds (init_world mh clk)); [done|apply init_ok|].
    intros k' h' Hk'. done. }
  split.
  - intros e He. by eapply chron_stamps.
  - intros Hclk. by eapply chron_sorted.
Qed.

Lemma reachable_histories_chronological_witness :
  let w :=
    consume
      [PositionMsg (published_position "a" (1, 1) 1 0);
       PositionMsg (published_position "b" (1, 1) 1 0)]
      (init_world 5 tick_clock) in
  let e := mkContact (KStr "b") (JNum 1, JNum 1) (tick_clock 2) in
  ∃ n, (n < ticks w)%nat ∧ time e = tick_clock n.
Proof.
  intros w e.
  destruct (reachable_histories_chronological 5 tick_clock
              [PositionMsg (published_position "a" (1, 1) 1 0);
               PositionMsg (published_position "b" (1, 1) 1 0)]
              ltac:(lia) (KStr "a") [e]) as [Hstamp _].
  - by vm_compute.
  - apply Hstamp. apply list_elem_of_singleton. reflexivity.
Defined.
